(** * gradio_i18n: the component-tree translation engine

    A shallow embedding of [src/gradio_i18n/i18n.py].

    - Python values that can sit in a component attribute are the type
      [pyval]; a plain [str] and an [I18nString] are two constructors
      carrying the same text.
    - Exceptions are explicit: fallible code returns a [result].
    - A generator is the finite trace of what it yields, ended by
      exhaustion or by the exception that interrupts it ([gen]), so that
      lazy consumers ([any], an early [return] inside a [for]) stop where
      the Python code stops.
    - Dictionaries keyed by strings are stdpp's [gmap]. *)

From Stdlib Require Import Ascii.
From stdpp Require Import gmap strings list fin_maps sorting.

#[local] Set Warnings "-register-all".

Open Scope string_scope.
Open Scope nat_scope.
Open Scope list_scope.

(** ** Exceptions and results *)

Inductive exn : Type :=
| ValueError (msg : string)
| TypeError
| KeyError
| IndexError
| AttributeError.

Inductive result (A : Type) : Type :=
| Ok (a : A)
| Raise (e : exn).
Arguments Ok {A} a.
Arguments Raise {A} e.

(** [result] is a monad for stdpp's [x ← r; k] notation. *)
#[global] Instance result_ret : MRet result := fun A a => Ok a.
#[global] Instance result_fmap : FMap result := fun A B f r =>
  match r with
  | Ok a => Ok (f a)
  | Raise e => Raise e
  end.
#[global] Instance result_bind : MBind result := fun A B k r =>
  match r with
  | Ok a => k a
  | Raise e => Raise e
  end.

(** ** Python values

    Text is a Rocq [string], one [ascii] per character.  [VStr] is an
    exact [str]; [VI18n] is an [I18nString] (the subclass of [str] of
    lines 26-28, built by [gettext]). *)

Inductive pyval : Type :=
| VNone
| VInt (n : Z)
| VStr (s : string)
| VI18n (s : string)
| VTuple (items : list pyval)
| VList (items : list pyval).

(** [gettext(key)], lines 31-35. *)
Definition gettext (key : string) : pyval := VI18n key.

(** [isinstance(v, I18nString)], [isinstance(v, tuple)]. *)
Definition is_i18n (v : pyval) : bool :=
  match v with VI18n _ => true | _ => false end.
Definition is_tuple (v : pyval) : bool :=
  match v with VTuple _ => true | _ => false end.

(** The text of a string value, whatever its class. *)
Definition text_of (v : pyval) : option string :=
  match v with
  | VStr s | VI18n s => Some s
  | _ => None
  end.

(** Python's [==] on these values does not see the class of a string:
    [erase] forgets the marker everywhere, and two values are equal for
    Python exactly when their erasures coincide. *)
Fixpoint erase (v : pyval) : pyval :=
  match v with
  | VI18n s => VStr s
  | VTuple l => VTuple (map erase l)
  | VList l => VList (map erase l)
  | _ => v
  end.

Definition py_eq (a b : pyval) : Prop := erase a = erase b.

(** [hash(v)] succeeds on everything but a list (or a tuple holding one). *)
Fixpoint hashable (v : pyval) : bool :=
  match v with
  | VList _ => false
  | VTuple l => forallb hashable l
  | _ => true
  end.

(** The target [(k, v)] of a [for] or of an assignment: Python iterates
    the right-hand side and wants exactly two items.  A tuple or a list of
    two items is taken apart; so is a string of two characters, whose items
    are one-character plain strings; [None] and numbers are not iterable.
    The text of the [ValueError] stands for Python's, which names the
    count. *)
Definition unpack2 (v : pyval) : result (pyval * pyval) :=
  match v with
  | VTuple [k; x] | VList [k; x] => Ok (k, x)
  | VTuple _ | VList _ => Raise (ValueError "wrong number of values to unpack (expected 2)")
  | VStr s | VI18n s =>
      match s with
      | String a (String b EmptyString) =>
          Ok (VStr (String a EmptyString), VStr (String b EmptyString))
      | _ => Raise (ValueError "wrong number of values to unpack (expected 2)")
      end
  | VNone | VInt _ => Raise TypeError
  end.

(** ** Generators *)

Inductive gen (A : Type) : Type :=
| Stop
| Fail (e : exn)
| Yield (x : A) (rest : gen A).
Arguments Stop {A}.
Arguments Fail {A} e.
Arguments Yield {A} x rest.

(** What the generator yields before it ends, and how it ends. *)
Fixpoint yields {A} (g : gen A) : list A :=
  match g with
  | Yield x g' => x :: yields g'
  | _ => []
  end.

Fixpoint final {A} (g : gen A) : option exn :=
  match g with
  | Stop => None
  | Fail e => Some e
  | Yield _ g' => final g'
  end.

(** Running [g1] to its end and then [g2]. *)
Fixpoint gen_app {A} (g1 g2 : gen A) : gen A :=
  match g1 with
  | Stop => g2
  | Fail e => Fail e
  | Yield x g' => Yield x (gen_app g' g2)
  end.

(** [list(g)]. *)
Fixpoint gen_list {A} (g : gen A) : result (list A) :=
  match g with
  | Stop => Ok []
  | Fail e => Raise e
  | Yield x g' => xs ← gen_list g'; Ok (x :: xs)
  end.

(** [any(g)]: stops at the first truthy item, so an exception that the
    generator would raise later is not seen. *)
Fixpoint any {A} (truthy : A → bool) (g : gen A) : result bool :=
  match g with
  | Stop => Ok false
  | Fail e => Raise e
  | Yield x g' => if truthy x then Ok true else any truthy g'
  end.

(** Truth value of an [int] and of a [str]. *)
Definition truthy_nat (n : nat) : bool := negb (n =? 0)%nat.
Definition truthy_str (s : string) : bool := negb (String.eqb s "").

(** [for x in g: ...] whose body may [return True] out of the enclosing
    function: [Ok true] is that early return, [Ok false] goes on. *)
Fixpoint for_any {A} (g : gen A) (body : A → result bool) : result bool :=
  match g with
  | Stop => Ok false
  | Fail e => Raise e
  | Yield x g' =>
      match body x with
      | Ok true => Ok true
      | Ok false => for_any g' body
      | Raise e => Raise e
      end
  end.

(** [for x in g: ...] whose body updates local state. *)
Fixpoint for_fold {A S} (g : gen A) (body : A → S → result S) (s : S) : result S :=
  match g with
  | Stop => Ok s
  | Fail e => Raise e
  | Yield x g' => s' ← body x s; for_fold g' body s'
  end.

(** [for x in l: for y in f(x): yield y]. *)
Definition gen_flat_map {A B} (f : A → gen B) : list A → gen B :=
  fix over (l : list A) : gen B :=
    match l with
    | [] => Stop
    | x :: l' => gen_app (f x) (over l')
    end.

(** Iterating a list. *)
Fixpoint gen_of_list {A} (l : list A) : gen A :=
  match l with
  | [] => Stop
  | x :: l' => Yield x (gen_of_list l')
  end.

(** ** Choice-index discovery, lines 38-51 *)

(** [for i, (k, v) in enumerate(choices)], from index [i] on. *)
Fixpoint iter_pairs (i : nat) (l : list pyval) : gen nat :=
  match l with
  | [] => Stop
  | e :: l' =>
      match unpack2 e with
      | Raise err => Fail err
      | Ok (k, _) =>
          if is_i18n k then Yield i (iter_pairs (S i) l')
          else iter_pairs (S i) l'
      end
  end.

(** [for i, v in enumerate(choices)], from index [i] on. *)
Fixpoint iter_plain (i : nat) (l : list pyval) : gen nat :=
  match l with
  | [] => Stop
  | v :: l' =>
      if is_i18n v then Yield i (iter_plain (S i) l')
      else iter_plain (S i) l'
  end.

Definition iter_i18n_choices (choices : pyval) : gen nat :=
  match choices with
  | VList ((c0 :: _) as l) =>
      if is_tuple c0 then iter_pairs 0 l else iter_plain 0 l
  | _ => Stop
  end.

(** ** Components

    A node of the UI tree.  [members] is what [inspect.getmembers] returns
    for it, the (name, value) pairs in the order of the names; [children]
    is looked at on a [BlockContext] only ([gr.Blocks] is one). *)

Inductive kind : Type := KComponent | KBlockContext | KBlocks.

Inductive Block : Type :=
  mkBlock {
    block_id : nat;
    block_kind : kind;
    members : list (string * pyval);
    children : list Block
  }.

Definition is_BlockContext (b : Block) : bool :=
  match block_kind b with KComponent => false | _ => true end.
Definition is_Blocks (b : Block) : bool :=
  match block_kind b with KBlocks => true | _ => false end.

Definition hasattr (c : Block) (name : string) : bool :=
  existsb (λ m, String.eqb m.1 name) (members c).

Definition getattr (c : Block) (name : string) : result pyval :=
  match find (λ m, String.eqb m.1 name) (members c) with
  | Some m => Ok m.2
  | None => Raise AttributeError
  end.

(** [v[i]] for a non-negative [i]. *)
Definition getitem (v : pyval) (i : nat) : result pyval :=
  match v with
  | VTuple l | VList l =>
      match l !! i with
      | Some x => Ok x
      | None => Raise IndexError
      end
  | VStr s | VI18n s =>
      match String.get i s with
      | Some a => Ok (VStr (String a EmptyString))
      | None => Raise IndexError
      end
  | VNone | VInt _ => Raise TypeError
  end.

(** ** Field discovery, lines 54-63 *)

Fixpoint fields_loop (has_choices : bool) (ms : list (string * pyval)) : gen string :=
  match ms with
  | [] => Stop
  | (name, value) :: ms' =>
      if String.eqb name "value" && has_choices then fields_loop has_choices ms'
      else if is_i18n value then Yield name (fields_loop has_choices ms')
      else if String.eqb name "choices" then
        match any truthy_nat (iter_i18n_choices value) with
        | Raise e => Fail e
        | Ok true => Yield name (fields_loop has_choices ms')
        | Ok false => fields_loop has_choices ms'
        end
      else fields_loop has_choices ms'
  end.

Definition iter_i18n_fields (component : Block) : gen string :=
  fields_loop (hasattr component "choices") (members component).

(** ** Tree traversal, lines 66-74 *)

Fixpoint iter_i18n_components (block : Block) : gen Block :=
  gen_app
    (if is_BlockContext block then
       gen_flat_map iter_i18n_components (children block)
     else Stop)
    (match any truthy_str (iter_i18n_fields block) with
     | Raise e => Fail e
     | Ok true => Yield block Stop
     | Ok false => Stop
     end).

(** ** Translation tables *)

(** [table.get(lang, {})]. *)
Definition lang_table (t : gmap string (gmap string string)) (lang : string)
  : gmap string string :=
  default ∅ (t !! lang).

(** [value in d] for a dictionary with string keys: the value is hashed
    first; a string is looked up by its text, anything else is not a key. *)
Definition dict_contains (d : gmap string string) (value : pyval) : result bool :=
  if hashable value then
    Ok (match text_of value with
        | Some s => bool_decide (is_Some (d !! s))
        | None => false
        end)
  else Raise TypeError.

(** The display half of [choices[idx]], lines 91-94 and 125-128. *)
Definition choice_display (choices : pyval) (idx : nat) : result pyval :=
  entry ← getitem choices idx;
  if is_tuple entry then getitem entry 0 else Ok entry.

(** ** Gap detector, lines 77-102 *)

(** The body of the loop over the fields, lines 89-100. *)
Definition field_is_new (existing_translation : gmap string (gmap string string))
    (lang : string) (component : Block) (field : string) : result bool :=
  if String.eqb field "choices" then
    choices ← getattr component "choices";
    for_any (iter_i18n_choices choices) (λ idx,
      value ← choice_display choices idx;
      negb <$> dict_contains (lang_table existing_translation lang) value)
  else
    value ← getattr component field;
    negb <$> dict_contains (lang_table existing_translation lang) value.

Definition has_new_i18n_fields (block : Block) (langs : list string)
    (existing_translation : gmap string (gmap string string)) : result bool :=
  components ← gen_list (iter_i18n_components block);
  for_any (gen_of_list langs) (λ lang,
    for_any (gen_of_list components) (λ component,
      for_any (iter_i18n_fields component)
        (field_is_new existing_translation lang component))).

(** ** Table builder, lines 105-135 *)

(** [table.get(lang, {}).get(key, key)] for a plain-text key (line 115). *)
Definition translate_text (t : gmap string (gmap string string))
    (lang key : string) : string :=
  default key (lang_table t lang !! key).

(** [tt + value] with [tt] the empty string (lines 129 and 132): plain
    text, or a [TypeError] when [value] is not a string. *)
Definition concat_empty (value : pyval) : result string :=
  match text_of value with
  | Some s => Ok s
  | None => Raise TypeError
  end.

(** [ret[lang][key] = v]. *)
Definition setitem2 (ret : gmap string (gmap string string))
    (lang key v : string) : result (gmap string (gmap string string)) :=
  match ret !! lang with
  | Some d => Ok (<[lang := <[key := v]> d]> ret)
  | None => Raise KeyError
  end.

(** The body of the loop over the fields, lines 123-133. *)
Definition dump_field (include_translations : gmap string (gmap string string))
    (lang : string) (component : Block) (field : string)
    (ret : gmap string (gmap string string))
  : result (gmap string (gmap string string)) :=
  if String.eqb field "choices" then
    choices ← getattr component "choices";
    for_fold (iter_i18n_choices choices) (λ idx ret,
      value ← choice_display choices idx;
      value ← concat_empty value;
      setitem2 ret lang value (translate_text include_translations lang value))
      ret
  else
    value ← getattr component field;
    value ← concat_empty value;
    setitem2 ret lang value (translate_text include_translations lang value).

Definition dump_blocks (block : Block) (langs : list string)
    (include_translations : gmap string (gmap string string))
  : result (gmap string (gmap string string)) :=
  components ← gen_list (iter_i18n_components block);
  for_fold (gen_of_list langs) (λ lang ret,
    for_fold (gen_of_list components) (λ component ret,
      for_fold (iter_i18n_fields component)
        (dump_field include_translations lang component) ret)
      (<[lang := ∅]> ret))
    ∅.

(** ** Translation applier, lines 138-199 *)

(** [translation.get(lang, {}).get(key, key)], line 156: the key is
    hashed; a string found in the table gives the table's text, anything
    else comes back as it is. *)
Definition translate (translation : gmap string (gmap string string))
    (lang : string) (key : pyval) : result pyval :=
  if hashable key then
    Ok (match text_of key with
        | Some s =>
            match lang_table translation lang !! s with
            | Some t => VStr t
            | None => key
            end
        | None => key
        end)
  else Raise TypeError.

(** *** on_load, lines 158-162 *)

(** The request of the host framework: [headers] resolves a header name
    to its value; subscripting a missing name raises [KeyError], as every
    Python mapping does. *)
Record Request := { headers : string → option string }.

Definition headers_getitem (request : Request) (name : string) : result string :=
  match headers request name with
  | Some v => Ok v
  | None => Raise KeyError
  end.

(** [s.split(sep)[0]]: the text before the first [sep], all of [s] when
    there is none. *)
Fixpoint split_head (sep : ascii) (s : string) : string :=
  match s with
  | EmptyString => EmptyString
  | String a s' =>
      if Ascii.eqb a sep then EmptyString else String a (split_head sep s')
  end.

(** [str.lower] on the characters this model has (code points below 256):
    A-Z and the accented capitals, the multiplication sign apart, move 32
    up. *)
Definition lower_char (a : ascii) : ascii :=
  let n := nat_of_ascii a in
  if ((65 <=? n) && (n <=? 90) || (192 <=? n) && (n <=? 222) && negb (n =? 215))%nat
  then ascii_of_nat (n + 32)
  else a.

Fixpoint lower (s : string) : string :=
  match s with
  | EmptyString => EmptyString
  | String a s' => String (lower_char a) (lower s')
  end.

Definition on_load (request : Request) : result string :=
  h ← headers_getitem request "Accept-Language";
  let lang := lower (split_head "-" (split_head "," h)) in
  if String.eqb lang "" then Ok "en" else Ok lang.

(** *** on_lang_change, lines 164-193 *)

(** [component == lang] on line 168.  Inside [on_lang_change] the name
    [lang] is the handler's own parameter, the language code (a [str]),
    which hides the selector component of the enclosing function.  A
    component does not define [__eq__], nor does [str] know components, so
    Python falls back to identity: a component is never a string. *)
Definition component_eq_str (component : Block) (lang : string) : bool := false.

(** [component.choices.copy()]: only a list has it. *)
Definition list_copy (v : pyval) : result (list pyval) :=
  match v with
  | VList l => Ok l
  | _ => Raise AttributeError
  end.

(** The body of the loop of lines 176-182 at one index. *)
Definition rebuild_entry (translation : gmap string (gmap string string))
    (lang : string) (idx : nat) (choices : list pyval) : result (list pyval) :=
  entry ← getitem (VList choices) idx;
  if is_tuple entry then
    '(k, v) ← unpack2 entry;
    t ← translate translation lang k;
    Ok (<[idx := VTuple [t; v]]> choices)
  else
    t ← translate translation lang entry;
    Ok (<[idx := VTuple [t; entry]]> choices).

(** Lines 175-182.  The generator walks the very list the loop body
    writes to; the body writes only at the index just yielded, which the
    enumeration has already passed, and the test of the first entry is made
    before the first yield, so the indices are those of the fresh copy. *)
Definition rebuild_choices (translation : gmap string (gmap string string))
    (lang : string) (component : Block) : result pyval :=
  orig ← getattr component "choices";
  choices ← list_copy orig;
  VList <$> for_fold (iter_i18n_choices (VList choices))
              (rebuild_entry translation lang) choices.

(** The same loop, step by step on the one list that the generator reads
    and the body writes: with [n] entries left to enumerate, the generator
    resumes at position [i] of the list as the body left it, tests the
    entry it finds there, and hands the index to the body when the test
    succeeds.  [pairs] is the outcome of the test of the first entry, made
    once. *)
Fixpoint rebuild_shared (translation : gmap string (gmap string string))
    (lang : string) (pairs : bool) (n i : nat) (choices : list pyval)
  : result (list pyval) :=
  match n with
  | 0 => Ok choices
  | S n' =>
      match choices !! i with
      | None => Ok choices
      | Some e =>
          match (if pairs then (λ p, is_i18n p.1) <$> unpack2 e
                 else Ok (is_i18n e)) with
          | Raise err => Raise err
          | Ok true =>
              choices' ← rebuild_entry translation lang i choices;
              rebuild_shared translation lang pairs n' (S i) choices'
          | Ok false => rebuild_shared translation lang pairs n' (S i) choices
          end
      end
  end.

(** The body of the loop over the fields, lines 174-185. *)
Definition update_field (translation : gmap string (gmap string string))
    (lang : string) (component : Block) (field : string)
    (modified : gmap string pyval) : result (gmap string pyval) :=
  if String.eqb field "choices" then
    choices ← rebuild_choices translation lang component;
    Ok (<[field := choices]> modified)
  else
    value ← getattr component field;
    t ← translate translation lang value;
    Ok (<[field := t]> modified).

(** The keyword arguments [modified] of one [gr.update], lines 171-187. *)
Definition update_of (translation : gmap string (gmap string string))
    (lang : string) (component : Block) (fields : list string)
  : result (gmap string pyval) :=
  for_fold (gen_of_list fields) (update_field translation lang component) ∅.

(** What the handler returns: the single update, or the list of them. *)
Inductive handler_ret : Type :=
| One (u : gmap string pyval)
| Many (us : list (gmap string pyval)).

Definition on_lang_change (components : list Block)
    (translation : gmap string (gmap string string)) (lang : string)
  : result handler_ret :=
  outputs ← for_fold (gen_of_list components) (λ component outputs,
    fields ← gen_list (iter_i18n_fields component);
    if component_eq_str component lang && bool_decide ("value" ∈ fields) then
      Raise (ValueError "'lang' component can't has I18nStrings as value")
    else
      modified ← update_of translation lang component fields;
      Ok (outputs ++ [modified])%list)
    [];
  match outputs with
  | [u] => Ok (One u)
  | _ => Ok (Many outputs)
  end.

(** The updates in the order of the components, however they are returned. *)
Definition updates (r : handler_ret) : list (gmap string pyval) :=
  match r with
  | One u => [u]
  | Many us => us
  end.

(** *** translate_blocks, lines 138-199 *)

(** The event listeners that setup registers with the host framework:
    [block.load(fn, outputs=...)] and
    [trigger.change(fn, inputs=..., outputs=...)]. *)
Inductive listener : Type :=
| OnLoad (fn : Request → result string) (outputs : list Block)
| OnChange (trigger : Block) (fn : string → result handler_ret)
    (inputs : list Block) (outputs : list Block).

(** [gr.State()]: a fresh component of the host, with the identifier the
    host gives it and no translatable attribute. *)
Definition gr_State (id : nat) : Block :=
  mkBlock id KComponent [("value", VNone)] [].

(** [root_block] is [Context.root_block] and [next_id] the identifier the
    host would give the next component. *)
Definition translate_blocks (root_block : option Block) (next_id : nat)
    (block : option Block) (translation : gmap string (gmap string string))
    (lang : option Block) : result (list listener) :=
  let block := match block with Some b => Some b | None => root_block end in
  match block with
  | Some block =>
      if is_Blocks block then
        components ← gen_list (iter_i18n_components block);
        let lang := default (gr_State next_id) lang in
        Ok [OnLoad on_load [lang];
            OnChange lang (on_lang_change components translation) [lang] components]
      else Raise (ValueError "block must be an instance of gradio.Blocks")
  | None => Raise (ValueError "block must be an instance of gradio.Blocks")
  end.

(** ** The scope, lines 202-251 *)

(** The [translation] argument: a dictionary, a string, or anything else. *)
Inductive source : Type :=
| SrcDict (t : gmap string (gmap string string))
| SrcStr (path : string)
| SrcOther (v : pyval).

(** [s.endswith(suffix)]. *)
Definition endswith (s suffix : string) : bool :=
  String.prefix (String.rev suffix) (String.rev s).

Section Translate.

(** The parsers and printers of the two file formats belong to the
    [json] and [yaml] libraries. *)
Variables json_load yaml_safe_load :
  string → result (gmap string (gmap string string)).
Variables json_dump yaml_dump : gmap string (gmap string string) → string.

(** Entering the scope, lines 210-212: the selector that is yielded. *)
Definition Translate_enter (next_id : nat) (lang : option Block) : Block :=
  default (gr_State next_id) lang.

(** Lines 214-231.  The files are a map from paths to contents;
    [os.path.exists] is membership. *)
Definition load_translation (fs : gmap string string) (translation : source)
  : result (gmap string (gmap string string)) :=
  match translation with
  | SrcDict t => Ok t
  | SrcStr path =>
      match fs !! path with
      | Some content =>
          if endswith path ".json" then json_load content
          else if endswith path ".yaml" then yaml_safe_load content
          else Raise (ValueError "Unsupported file format")
      | None => Ok ∅
      end
  | SrcOther _ => Raise (ValueError "Unsupported translation type")
  end.

(** Lines 247-251: opening for writing empties the file. *)
Definition write_merged (fs : gmap string string) (path : string)
    (merged : gmap string (gmap string string)) : gmap string string :=
  let fs := <[path := ""]> fs in
  if endswith path ".json" then <[path := json_dump merged]> fs
  else if endswith path ".yaml" then <[path := yaml_dump merged]> fs
  else fs.

(** Lines 233-251, with the table already loaded. *)
Definition Translate_wire (fs : gmap string string) (root_block : option Block)
    (next_id : nat) (block : Block) (translation : source)
    (translation_dict : gmap string (gmap string string))
    (lang : Block) (placeholder_langs : list string)
  : result (list listener * gmap string string) :=
  listeners ← translate_blocks root_block next_id (Some block) translation_dict (Some lang);
  match placeholder_langs, translation with
  | _ :: _, SrcStr path =>
      match has_new_i18n_fields block placeholder_langs translation_dict with
      | Ok true =>
          merged ← dump_blocks block placeholder_langs translation_dict;
          Ok (listeners, write_merged fs path merged)
      | Ok false => Ok (listeners, fs)
      | Raise e => Raise e
      end
  | _, _ => Ok (listeners, fs)
  end.

(** Leaving the scope, lines 214-251: [block] is [Context.block], the
    container that is open where the scope ends; the result is the
    listeners registered and the files afterwards. *)
Definition Translate_exit (fs : gmap string string) (root_block : option Block)
    (next_id : nat) (block : Block) (translation : source)
    (lang : Block) (placeholder_langs : list string)
  : result (list listener * gmap string string) :=
  translation_dict ← load_translation fs translation;
  Translate_wire fs root_block next_id block translation translation_dict
    lang placeholder_langs.

End Translate.

(** ** Interop shim, lines 12-23 *)

Section escape_caller.

(** The wrapped function, applied to positional and keyword arguments,
    and [str(v)] for a [v] that is not a string. *)
Variable func : list pyval → list (string * pyval) → result pyval.
Variable str_of : pyval → string.

(** [I18nString(v)]: a marker with the text of [str(v)]. *)
Definition I18nString (v : pyval) : pyval :=
  VI18n (default (str_of v) (text_of v)).

Definition escape_caller (args : list pyval) (kwargs : list (string * pyval))
  : result pyval :=
  match args with
  | a0 :: _ =>
      if is_i18n a0 then I18nString <$> func args kwargs
      else func args kwargs
  | [] => func args kwargs
  end.

End escape_caller.

(** * Vocabulary of the properties *)

(** A pair is a tuple of two items. *)
Definition is_pair (v : pyval) : bool :=
  match v with VTuple [_; _] => true | _ => false end.

(** The positions below [n] that satisfy [p], in increasing order. *)
Definition positions (p : nat → bool) (n : nat) : list nat :=
  List.filter p (seq 0 n).

(** Position [i] holds a pair whose first item is a marker. *)
Definition pair_marker_at (l : list pyval) (i : nat) : bool :=
  match l !! i with
  | Some (VTuple [k; _]) => is_i18n k
  | _ => false
  end.

(** Position [i] holds a marker. *)
Definition plain_marker_at (l : list pyval) (i : nat) : bool :=
  match l !! i with
  | Some v => is_i18n v
  | None => false
  end.

(** Position [i] holds a value that unpacks into two items, the first of
    which is a marker. *)
Definition unpacked_marker_at (l : list pyval) (i : nat) : bool :=
  match l !! i with
  | Some e =>
      match unpack2 e with
      | Ok (k, _) => is_i18n k
      | Raise _ => false
      end
  | None => false
  end.

(** The value unpacks into two items. *)
Definition unpacks (e : pyval) : Prop := ∃ p, unpack2 e = Ok p.

(** The two halves of a choices entry: a pair shows its first item and
    stands for its second; a plain entry shows and stands for itself. *)
Definition display_half (e : pyval) : pyval :=
  match e with VTuple (k :: _) => k | _ => e end.
Definition value_half (e : pyval) : pyval :=
  match e with VTuple [_; v] => v | _ => e end.

(** *** Well-formed trees

    What the host framework guarantees of a component: its attribute names
    are distinct, and its [choices], when it has one, is not itself a
    string marked for translation and, when it is a list that starts with a
    tuple, holds pairs only. *)
Definition wf_choices (v : pyval) : bool :=
  match v with
  | VList ((VTuple _ :: _) as l) => forallb is_pair l
  | VI18n _ => false
  | _ => true
  end.

Definition wf_block (c : Block) : bool :=
  bool_decide (NoDup (members c).*1) &&
  forallb (λ m, if String.eqb m.1 "choices" then wf_choices m.2 else true)
    (members c).

(** The nodes that the traversal of lines 66-74 visits. *)
Fixpoint subblocks (b : Block) : list Block :=
  b :: (if is_BlockContext b then children b ≫= subblocks else []).

Definition wf_tree (b : Block) : bool := forallb wf_block (subblocks b).

(** *** What discovery finds *)

Definition discovered_components (block : Block) : list Block :=
  yields (iter_i18n_components block).

Definition discovered_fields (c : Block) : list string :=
  yields (iter_i18n_fields c).

(** The translatable values of field [f] of [c]: the attribute itself, or
    for [choices] the display halves at the positions of choice-index
    discovery. *)
Definition field_values (c : Block) (f : string) : list pyval :=
  if String.eqb f "choices" then
    match getattr c "choices" with
    | Ok (VList l) =>
        omap (λ idx, display_half <$> l !! idx) (yields (iter_i18n_choices (VList l)))
    | _ => []
    end
  else
    match getattr c f with
    | Ok v => [v]
    | Raise _ => []
    end.

(** The text of [v] is not a key of the table's mapping for [lang] (a
    language without a mapping has no key). *)
Definition absent_key (tbl : gmap string (gmap string string)) (lang : string)
    (v : pyval) : Prop :=
  match text_of v with
  | Some s => tbl !! lang ≫= (λ d, d !! s) = None
  | None => True
  end.

(** The texts of all translatable values of a component, and of a tree. *)
Definition component_keys (c : Block) : list string :=
  f ← discovered_fields c; omap text_of (field_values c f).

Definition discovered_keys (block : Block) : list string :=
  c ← discovered_components block; component_keys c.

(** *** What the table builder writes *)

(** [r] is [r0] after the entries of [ks], each with its translation or
    itself, were written into the mapping of [lang]; the other languages
    are as before. *)
Definition adds (tbl : gmap string (gmap string string)) (lang : string)
    (ks : list string) (r0 r : gmap string (gmap string string)) : Prop :=
  (∀ l, l ≠ lang → r !! l = r0 !! l) ∧
  ∃ d0 d, r0 !! lang = Some d0 ∧ r !! lang = Some d ∧
    ∀ k, d !! k = if bool_decide (k ∈ ks)
                  then Some (translate_text tbl lang k)
                  else d0 !! k.

(** The table that the spec describes: for one language, every key with
    its existing translation or else itself. *)
Definition placeholder_dict (tbl : gmap string (gmap string string))
    (keys : list string) (lang : string) : gmap string string :=
  list_to_map ((λ k, (k, default k (tbl !! lang ≫= (λ d, d !! k)))) <$> keys).

(** *** What the rebuild computes *)

(** The table lookup of a value under a language, with the identity
    fallback: the table's text when the text of [v] is a key of the mapping
    for [lang], [v] itself otherwise. *)
Definition lookup_or_self (tbl : gmap string (gmap string string)) (lang : string)
    (v : pyval) : pyval :=
  match text_of v with
  | Some s =>
      match tbl !! lang ≫= (λ d, d !! s) with
      | Some t => VStr t
      | None => v
      end
  | None => v
  end.

(** The translatable positions of a list of choices. *)
Definition translatable_at (l : list pyval) (j : nat) : bool :=
  bool_decide (j ∈ yields (iter_i18n_choices (VList l))).

(** An entry after the rebuild: at a translatable position, the pair of
    the looked-up display half and the untouched value half. *)
Definition rebuilt_choices (tbl : gmap string (gmap string string)) (lang : string)
    (l : list pyval) : list pyval :=
  imap (λ j e, if translatable_at l j
               then VTuple [lookup_or_self tbl lang (display_half e); value_half e]
               else e) l.

(** An entry that choice-index discovery can point at and the rebuild can
    handle: a pair whose first item is a marker, or a marker. *)
Definition marker_entry (e : pyval) : Prop :=
  ∃ s, (∃ v, e = VTuple [VI18n s; v]) ∨ e = VI18n s.

(** [v] is the new value of the discovered field [f] of [c]. *)
Definition new_value (tbl : gmap string (gmap string string)) (lang : string)
    (c : Block) (f : string) (v : pyval) : Prop :=
  if String.eqb f "choices" then
    ∃ l, getattr c "choices" = Ok (VList l) ∧
         (∀ j e, translatable_at l j = true → l !! j = Some e → marker_entry e) ∧
         v = VList (rebuilt_choices tbl lang l)
  else
    ∃ old, getattr c f = Ok old ∧ v = lookup_or_self tbl lang old.

(** An update carries the new values of the discovered fields of its
    component and nothing else. *)
Definition update_for (tbl : gmap string (gmap string string)) (lang : string)
    (c : Block) (u : gmap string pyval) : Prop :=
  (∀ f, f ∈ discovered_fields c → ∃ v, u !! f = Some v ∧ new_value tbl lang c f v) ∧
  (∀ f, f ∉ discovered_fields c → u !! f = None).

(** The table maps every discovered key of the tree to itself, for the
    language selected. *)
Definition identity_table (tbl : gmap string (gmap string string)) (lang : string)
    (block : Block) : Prop :=
  ∀ k, k ∈ discovered_keys block → tbl !! lang ≫= (λ d, d !! k) = Some k.

(** *** Exceptions of Python's own

    The exceptions that come from unpacking, hashing, subscripting and
    attribute access, as opposed to a [ValueError] that the code raises
    with a message of its own. *)
Definition python_error (e : exn) : Prop :=
  match e with
  | ValueError msg => msg = "wrong number of values to unpack (expected 2)"
  | _ => True
  end.

(** *** Examples *)

Definition ex_hello : Block := mkBlock 1 KComponent [("label", VI18n "Hello")] [].
Definition ex_hello_root : Block := mkBlock 0 KBlocks [] [ex_hello].

(** A dropdown with pairs as choices, next to the label. *)
Definition ex_dropdown : Block :=
  mkBlock 2 KComponent
    [("choices", VList [VTuple [VI18n "Yes"; VInt 1]; VTuple [VStr "n/a"; VInt 2];
                        VTuple [VI18n "No"; VInt 0]]);
     ("label", VI18n "Answer");
     ("value", VI18n "Yes")] [].
Definition ex_form_root : Block := mkBlock 0 KBlocks [] [ex_hello; ex_dropdown].

(** A radio group whose choices are plain values. *)
Definition ex_radio : Block :=
  mkBlock 1 KComponent [("choices", VList [VStr "Pick"; VI18n "Yes"])] [].
Definition ex_radio_root : Block := mkBlock 0 KBlocks [] [ex_radio].
Definition ex_radio_table : gmap string (gmap string string) :=
  {[ "en" := {[ "Yes" := "Yes" ]} ]}.

(** A dropdown whose only marked choice is the first one. *)
Definition ex_first_only : Block :=
  mkBlock 3 KComponent
    [("choices", VList [VTuple [VI18n "Yes"; VInt 1]; VTuple [VStr "No"; VInt 0]])] [].

(** A language selector that carries a marked string as its value. *)
Definition ex_selector : Block :=
  mkBlock 5 KComponent [("label", VStr "Language"); ("value", VI18n "en")] [].
Definition ex_selector_root : Block :=
  mkBlock 0 KBlocks [] [ex_hello; ex_selector].

(** A component whose [choices] is itself a marked string. *)
Definition ex_bad_choices : Block :=
  mkBlock 4 KComponent [("choices", VI18n "Pick one")] [].

(** A request that carries no headers at all. *)
Definition ex_bare_request : Request := {| headers := λ _, None |}.

(** * Properties *)

(** ** Generators *)

Lemma filter_seq_ext (p q : nat → bool) (i n : nat) :
  (∀ j, i ≤ j < i + n → p j = q j) →
  List.filter p (seq i n) = List.filter q (seq i n).
Proof.
  intros H. apply List.filter_ext_in. intros j Hj.
  apply in_seq in Hj. apply H. lia.
Qed.

(** ** Choice-index discovery *)

Lemma iter_pairs_all_unpack (i : nat) (l : list pyval) :
  Forall unpacks l →
  final (iter_pairs i l) = None ∧
  yields (iter_pairs i l)
  = List.filter (λ j, unpacked_marker_at l (j - i)) (seq i (length l)).
Proof.
  revert i. induction l as [|e l IH]; intros i Hall; [done|].
  inversion Hall as [|? ? [[k v] He] Hl]; subst.
  destruct (IH (S i) Hl) as [Hf Hy].
  assert (Hrest : List.filter (λ j, unpacked_marker_at (e :: l) (j - i)) (seq (S i) (length l))
                  = List.filter (λ j, unpacked_marker_at l (j - S i)) (seq (S i) (length l))).
  { apply filter_seq_ext. intros j Hj.
    replace (j - i) with (S (j - S i)) by lia. done. }
  cbn [iter_pairs length seq List.filter]. rewrite He.
  replace (i - i) with 0 by lia.
  unfold unpacked_marker_at at 1. cbn [lookup list_lookup]. rewrite He.
  destruct (is_i18n k); cbn [final yields]; rewrite Hrest, <- Hy; done.
Qed.

Lemma iter_plain_yields (i : nat) (l : list pyval) :
  final (iter_plain i l) = None ∧
  yields (iter_plain i l)
  = List.filter (λ j, plain_marker_at l (j - i)) (seq i (length l)).
Proof.
  revert i. induction l as [|e l IH]; intros i; [done|].
  destruct (IH (S i)) as [Hf Hy].
  assert (Hrest : List.filter (λ j, plain_marker_at (e :: l) (j - i)) (seq (S i) (length l))
                  = List.filter (λ j, plain_marker_at l (j - S i)) (seq (S i) (length l))).
  { apply filter_seq_ext. intros j Hj.
    replace (j - i) with (S (j - S i)) by lia. done. }
  cbn [iter_plain length seq List.filter].
  replace (i - i) with 0 by lia.
  unfold plain_marker_at at 1. cbn [lookup list_lookup].
  destruct (is_i18n e); cbn [final yields]; rewrite Hrest, <- Hy; done.
Qed.

Lemma is_pair_unpacks (e : pyval) : is_pair e = true → unpacks e.
Proof.
  destruct e as [| | | |[|k [|v [|]]]|]; try done. intros _. by exists (k, v).
Qed.

Lemma is_pair_is_tuple (e : pyval) : is_pair e = true → is_tuple e = true.
Proof. by destruct e. Qed.

Lemma unpacked_marker_pairs (l : list pyval) (i : nat) :
  Forall (λ e, is_pair e = true) l →
  unpacked_marker_at l i = pair_marker_at l i.
Proof.
  intros Hall. unfold unpacked_marker_at, pair_marker_at.
  destruct (l !! i) as [e|] eqn:Hi; [|done].
  pose proof (Forall_lookup_1 _ _ _ _ Hall Hi) as He. cbn in He.
  by destruct e as [| | | |[|k [|v [|]]]|].
Qed.

Lemma filter_seq_minus_0 (p : nat → bool) (n : nat) :
  List.filter (λ j, p (j - 0)) (seq 0 n) = positions p n.
Proof. unfold positions. apply List.filter_ext. intros j. by rewrite Nat.sub_0_r. Qed.

(** The first entry that does not unpack stops the pair loop there. *)
Lemma iter_pairs_first_failure (i : nat) (done_ : list pyval) (e : pyval)
    (rest : list pyval) (err : exn) :
  Forall unpacks done_ → unpack2 e = Raise err →
  final (iter_pairs i (done_ ++ e :: rest)) = Some err ∧
  yields (iter_pairs i (done_ ++ e :: rest))
  = List.filter (λ j, unpacked_marker_at (done_ ++ e :: rest) (j - i))
      (seq i (length done_)).
Proof.
  revert i. induction done_ as [|d l IH]; intros i Hall He.
  - cbn. by rewrite He.
  - inversion Hall as [|? ? [[k v] Hd] Hl]; subst.
    destruct (IH (S i) Hl He) as [Hf Hy].
    assert (Hrest :
      List.filter (λ j, unpacked_marker_at ((d :: l) ++ e :: rest) (j - i))
        (seq (S i) (length l))
      = List.filter (λ j, unpacked_marker_at (l ++ e :: rest) (j - S i))
          (seq (S i) (length l))).
    { apply filter_seq_ext. intros j Hj.
      replace (j - i) with (S (j - S i)) by lia. done. }
    cbn [app iter_pairs length seq List.filter]. rewrite Hd.
    replace (i - i) with 0 by lia.
    unfold unpacked_marker_at at 1. cbn [app lookup list_lookup]. rewrite Hd.
    cbn [app] in Hrest.
    destruct (is_i18n k); cbn [final yields]; rewrite Hrest, <- Hy; done.
Qed.

Lemma iter_pairs_final (i : nat) (l : list pyval) :
  final (iter_pairs i l) = None ↔ Forall unpacks l.
Proof.
  split; [|intros H; by apply iter_pairs_all_unpack].
  revert i. induction l as [|e l IH]; intros i; [by constructor|].
  cbn. destruct (unpack2 e) as [[k v]|err] eqn:He; [|done].
  intros Hf. constructor; [by exists (k, v)|].
  apply (IH (S i)). by destruct (is_i18n k).
Qed.

(** Which values unpack into two items. *)
Lemma unpacks_iff (e : pyval) :
  unpacks e ↔
  (∃ k v, e = VTuple [k; v] ∨ e = VList [k; v]) ∨
  (∃ s, text_of e = Some s ∧ String.length s = 2).
Proof.
  unfold unpacks. split.
  - intros [p Hp]. destruct e as [| |s|s|[|k [|v [|]]]|[|k [|v [|]]]]; try done.
    + right. exists s. split; [done|]. by destruct s as [|a [|b [|]]].
    + right. exists s. split; [done|]. by destruct s as [|a [|b [|]]].
    + left. exists k, v. by left.
    + left. exists k, v. by right.
  - intros [(k & v & [-> | ->])|(s & Hs & Hlen)]; [by exists (k, v)..|].
    destruct e; try done; cbn in Hs; injection Hs as ->;
      destruct s as [|a [|b [|]]]; try done; by eexists.
Qed.

(** C7.  Choice-index discovery: on a list of pairs it yields, in
    increasing order, exactly the positions whose pair has a Marker Value
    as first item; on a list of plain values, exactly the positions whose
    value is a Marker Value; on an empty list or on a value that is not a
    list it yields nothing.  In none of these cases does it raise. *)
Theorem iter_i18n_choices_positions (choices : pyval) :
  (∀ l, choices = VList l → Forall (λ e, is_pair e = true) l →
     final (iter_i18n_choices choices) = None ∧
     yields (iter_i18n_choices choices) = positions (pair_marker_at l) (length l)) ∧
  (∀ l, choices = VList l → Forall (λ e, is_tuple e = false) l →
     final (iter_i18n_choices choices) = None ∧
     yields (iter_i18n_choices choices) = positions (plain_marker_at l) (length l)) ∧
  (choices = VList [] → iter_i18n_choices choices = Stop) ∧
  ((∀ l, choices ≠ VList l) → iter_i18n_choices choices = Stop).
Proof.
  split; [|split; [|split]].
  - intros l -> Hall. destruct l as [|c0 l]; [done|].
    assert (Hu : Forall unpacks (c0 :: l)).
    { eapply Forall_impl; [exact Hall|]. intros e. apply is_pair_unpacks. }
    inversion Hall as [|? ? Hc0 Hl]; subst.
    cbn [iter_i18n_choices]. rewrite (is_pair_is_tuple _ Hc0).
    destruct (iter_pairs_all_unpack 0 _ Hu) as [Hf ->]. split; [exact Hf|].
    rewrite filter_seq_minus_0. unfold positions.
    apply List.filter_ext. intros j. by apply unpacked_marker_pairs.
  - intros l -> Hall. destruct l as [|c0 l]; [done|].
    inversion Hall as [|? ? Hc0 Hl]; subst.
    cbn [iter_i18n_choices]. rewrite Hc0.
    destruct (iter_plain_yields 0 (c0 :: l)) as [Hf ->]. split; [exact Hf|].
    apply filter_seq_minus_0.
  - by intros ->.
  - intros Hnl. destruct choices as [| | | | |l]; try done. by destruct (Hnl l).
Qed.

Lemma iter_i18n_choices_positions_witness :
  let pairs := [VTuple [VI18n "Yes"; VInt 1]; VTuple [VStr "No"; VInt 0];
                VTuple [VI18n "Maybe"; VNone]] in
  let plain := [VStr "Pick"; VI18n "Yes"; VInt 3; VI18n "No"] in
  Forall (λ e, is_pair e = true) pairs ∧
  yields (iter_i18n_choices (VList pairs)) = [0; 2] ∧
  Forall (λ e, is_tuple e = false) plain ∧
  yields (iter_i18n_choices (VList plain)) = [1; 3] ∧
  iter_i18n_choices VNone = Stop.
Proof.
  intros pairs plain.
  assert (Hpairs : Forall (λ e, is_pair e = true) pairs) by (repeat constructor).
  assert (Hplain : Forall (λ e, is_tuple e = false) plain) by (repeat constructor).
  destruct (iter_i18n_choices_positions (VList pairs)) as [Hp _].
  destruct (iter_i18n_choices_positions (VList plain)) as (_ & Hq & _).
  destruct (iter_i18n_choices_positions VNone) as (_ & _ & _ & Hn).
  split; [exact Hpairs|]. split.
  { destruct (Hp pairs eq_refl Hpairs) as [_ ->]. reflexivity. }
  split; [exact Hplain|]. split.
  { destruct (Hq plain eq_refl Hplain) as [_ ->]. reflexivity. }
  apply Hn. intros l. discriminate.
Defined.

(** C10 as it stands fails: after a first entry that is a pair, a later
    entry that is no pair, the two-character string of the second choice
    here, is unpacked into its two characters and the iteration ends
    normally. *)
Lemma iter_i18n_choices_first_entry_counterexample :
  let l := [VTuple [VStr "English"; VStr "en"]; VStr "fr"] in
  is_tuple (VTuple [VStr "English"; VStr "en"]) = true ∧
  is_pair (VStr "fr") = false ∧ is_tuple (VStr "fr") = false ∧
  iter_i18n_choices (VList l) = Stop ∧
  final (iter_i18n_choices (VList l)) = None.
Proof. by repeat split. Qed.

(** C10, amended.  Choice-index discovery classifies the whole list by
    the type of its first entry alone.  When the first entry is a tuple,
    every entry is unpacked into two items: the iteration ends normally
    exactly when every entry unpacks (a tuple or list of two items, a
    string of two characters), and then yields the positions whose first
    unpacked item is a Marker Value; the first entry that does not unpack
    makes it fail there with that entry's error, after the positions found
    before it.  When the first entry is not a tuple, no entry is unpacked,
    the iteration never fails, and it yields the positions whose entry is
    itself a Marker Value, which a later tuple never is. *)
Theorem iter_i18n_choices_by_first_entry (c0 : pyval) (rest : list pyval) :
  let l := c0 :: rest in
  (is_tuple c0 = true →
     (final (iter_i18n_choices (VList l)) = None ↔ Forall unpacks l) ∧
     (Forall unpacks l →
        yields (iter_i18n_choices (VList l))
        = positions (unpacked_marker_at l) (length l)) ∧
     (∀ i e err, l !! i = Some e → unpack2 e = Raise err →
        Forall unpacks (take i l) →
        final (iter_i18n_choices (VList l)) = Some err ∧
        yields (iter_i18n_choices (VList l))
        = positions (unpacked_marker_at l) i)) ∧
  (is_tuple c0 = false →
     final (iter_i18n_choices (VList l)) = None ∧
     yields (iter_i18n_choices (VList l))
     = positions (plain_marker_at l) (length l) ∧
     ∀ i e, l !! i = Some e → is_tuple e = true → i ∉ yields (iter_i18n_choices (VList l))).
Proof.
  intros l. subst l. split; intros Hc0; cbn [iter_i18n_choices]; rewrite Hc0;
    set (l := c0 :: rest).
  - split; [apply iter_pairs_final|]. split.
    + intros Hall. destruct (iter_pairs_all_unpack 0 l Hall) as [_ ->].
      apply filter_seq_minus_0.
    + intros i e err Hi He Hbefore.
      pose proof (take_drop_middle l i e Hi) as Hsplit.
      assert (Hlen : length (take i l) = i).
      { apply length_take_le. apply lookup_lt_Some in Hi. lia. }
      destruct (iter_pairs_first_failure 0 (take i l) e (drop (S i) l) err Hbefore He)
        as [Hf Hy].
      rewrite Hsplit in Hf, Hy. rewrite Hlen in Hy.
      split; [exact Hf|]. rewrite Hy. apply filter_seq_minus_0.
  - destruct (iter_plain_yields 0 l) as [Hf Hy].
    split; [exact Hf|]. split; [rewrite Hy; apply filter_seq_minus_0|].
    intros i e Hi He Hin. rewrite Hy in Hin.
    apply list_elem_of_In, List.filter_In in Hin. destruct Hin as [_ Hm].
    rewrite Nat.sub_0_r in Hm. unfold plain_marker_at in Hm. rewrite Hi in Hm.
    by destruct e.
Qed.

Lemma iter_i18n_choices_by_first_entry_witness :
  let c0 := VTuple [VI18n "Yes"; VInt 1] in
  let rest := [VTuple [VI18n "No"; VInt 0]; VInt 7; VTuple [VI18n "Late"; VNone]] in
  is_tuple c0 = true ∧
  final (iter_i18n_choices (VList (c0 :: rest))) = Some TypeError ∧
  yields (iter_i18n_choices (VList (c0 :: rest))) = [0; 1].
Proof.
  intros c0 rest. split; [reflexivity|].
  destruct (iter_i18n_choices_by_first_entry c0 rest) as [Hpairs _].
  destruct (Hpairs eq_refl) as (_ & _ & Hfail).
  destruct (Hfail 2 (VInt 7) TypeError eq_refl eq_refl) as [Hf Hy].
  - repeat constructor; by eexists.
  - split; [exact Hf|]. rewrite Hy. reflexivity.
Defined.

(** ** Generators that end normally *)

Lemma gen_list_ok {A} (g : gen A) : final g = None → gen_list g = Ok (yields g).
Proof.
  induction g as [|e|x g IH]; cbn; intros Hf; [done..|]. by rewrite (IH Hf).
Qed.

Lemma any_ok {A} (t : A → bool) (g : gen A) :
  final g = None → ∃ b, any t g = Ok b.
Proof.
  induction g as [|e|x g IH]; cbn; intros Hf; [by eexists|done|].
  destruct (t x); [by eexists|by apply IH].
Qed.

Lemma final_gen_app {A} (g1 g2 : gen A) :
  final (gen_app g1 g2) = match final g1 with Some e => Some e | None => final g2 end.
Proof. induction g1 as [|e|x g IH]; cbn; done. Qed.

Lemma yields_gen_app {A} (g1 g2 : gen A) :
  final g1 = None → yields (gen_app g1 g2) = yields g1 ++ yields g2.
Proof. induction g1 as [|e|x g IH]; cbn; intros Hf; [done..|]. by rewrite IH. Qed.

Lemma final_gen_of_list {A} (l : list A) : final (gen_of_list l) = None.
Proof. induction l; cbn; done. Qed.

Lemma yields_gen_of_list {A} (l : list A) : yields (gen_of_list l) = l.
Proof. induction l as [|x l IH]; cbn; [done|]. by rewrite IH. Qed.

(** A loop with an early [return True]: when neither the generator nor
    the body raises, the answer is whether the body says yes somewhere. *)
Lemma for_any_spec {A} (g : gen A) (body : A → result bool) (P : A → Prop) :
  final g = None →
  (∀ x, x ∈ yields g → ∃ b, body x = Ok b ∧ (b = true ↔ P x)) →
  ∃ b, for_any g body = Ok b ∧ (b = true ↔ ∃ x, x ∈ yields g ∧ P x).
Proof.
  induction g as [|e|x g IH]; cbn; intros Hf Hbody.
  - exists false. split; [done|]. split; [done|]. intros (x & Hx & _). inversion Hx.
  - done.
  - destruct (Hbody x) as (b & Hb & HP); [by left|]. rewrite Hb.
    destruct b.
    + exists true. split; [done|]. split; [|done]. intros _. exists x.
      split; [by left|]. by apply HP.
    + destruct (IH Hf) as (b' & Hb' & HP').
      { intros y Hy. apply Hbody. by right. }
      exists b'. split; [done|]. rewrite HP'. split.
      * intros (y & Hy & HPy). exists y. split; [by right|done].
      * intros (y & Hy & HPy). apply elem_of_cons in Hy as [->|Hy].
        -- apply HP in HPy. done.
        -- by exists y.
Qed.

(** ** Discovery on well-formed trees *)

Lemma forallb_Forall_true {A} (f : A → bool) (l : list A) :
  forallb f l = true → Forall (λ x, f x = true) l.
Proof.
  induction l as [|x l IH]; cbn; [by constructor|].
  intros H. apply andb_prop in H as [Hx Hl]. constructor; [done|by apply IH].
Qed.

Lemma wf_choices_pairs (c0 : pyval) (l : list pyval) :
  is_tuple c0 = true → wf_choices (VList (c0 :: l)) = true →
  Forall (λ e, is_pair e = true) (c0 :: l).
Proof.
  intros Hc0 Hwf. destruct c0; try done.
  apply forallb_Forall_true. exact Hwf.
Qed.

Lemma wf_choices_final (v : pyval) :
  wf_choices v = true → final (iter_i18n_choices v) = None.
Proof.
  destruct v as [| | | | |[|c0 l]]; try done. intros Hwf.
  cbn [iter_i18n_choices]. destruct (is_tuple c0) eqn:Hc0.
  - apply iter_pairs_all_unpack.
    eapply Forall_impl; [by apply wf_choices_pairs|]. intros e. apply is_pair_unpacks.
  - apply iter_plain_yields.
Qed.

(** A yielded position of a well-formed list holds an entry whose display
    half is a marker: a pair when the list starts with a tuple, the marker
    itself otherwise. *)
Lemma wf_choices_yield (l : list pyval) (idx : nat) :
  wf_choices (VList l) = true →
  idx ∈ yields (iter_i18n_choices (VList l)) →
  ∃ e s, l !! idx = Some e ∧ display_half e = VI18n s ∧
         ((∃ v, e = VTuple [VI18n s; v]) ∨ e = VI18n s).
Proof.
  destruct l as [|c0 l]; [intros _ Hin; inversion Hin|]. intros Hwf.
  cbn [iter_i18n_choices]. destruct (is_tuple c0) eqn:Hc0.
  - assert (Hall : Forall (λ e, is_pair e = true) (c0 :: l))
      by (by apply wf_choices_pairs).
    assert (Hu : Forall unpacks (c0 :: l)).
    { eapply Forall_impl; [exact Hall|]. intros e. apply is_pair_unpacks. }
    destruct (iter_pairs_all_unpack 0 _ Hu) as [_ ->].
    intros Hin. apply list_elem_of_In, List.filter_In in Hin as [_ Hm].
    rewrite Nat.sub_0_r, (unpacked_marker_pairs _ _ Hall) in Hm.
    unfold pair_marker_at in Hm.
    destruct ((c0 :: l) !! idx) as [e|] eqn:Hi; [|done].
    destruct e as [| | | |[|k [|v [|]]]|]; try done.
    destruct k as [| | |s| |]; try done.
    exists (VTuple [VI18n s; v]), s. split; [done|]. split; [done|]. left. by exists v.
  - destruct (iter_plain_yields 0 (c0 :: l)) as [_ ->].
    intros Hin. apply list_elem_of_In, List.filter_In in Hin as [_ Hm].
    rewrite Nat.sub_0_r in Hm. unfold plain_marker_at in Hm.
    destruct ((c0 :: l) !! idx) as [e|] eqn:Hi; [|done].
    destruct e as [| | |s| |]; try done.
    exists (VI18n s), s. split; [done|]. split; [done|]. by right.
Qed.

Lemma wf_choices_display (l : list pyval) (idx : nat) :
  wf_choices (VList l) = true →
  idx ∈ yields (iter_i18n_choices (VList l)) →
  ∃ e s, l !! idx = Some e ∧ display_half e = VI18n s ∧
         choice_display (VList l) idx = Ok (VI18n s).
Proof.
  intros Hwf Hin.
  destruct (wf_choices_yield l idx Hwf Hin) as (e & s & Hi & Hd & He).
  exists e, s. split; [done|]. split; [done|].
  unfold choice_display. cbn. rewrite Hi. cbn.
  destruct He as [[v ->]| ->]; done.
Qed.

Lemma getattr_member (c : Block) (n : string) (v : pyval) :
  NoDup (members c).*1 → (n, v) ∈ members c → getattr c n = Ok v.
Proof.
  unfold getattr. induction (members c) as [|[n' v'] ms IH]; cbn.
  - intros _ Hin. inversion Hin.
  - intros Hnd Hin. apply NoDup_cons in Hnd as [Hn' Hnd].
    apply elem_of_cons in Hin as [Heq|Hin].
    + injection Heq as <- <-. by rewrite String.eqb_refl.
    + destruct (String.eqb n' n) eqn:Hnn; [|by apply IH].
      apply String.eqb_eq in Hnn as ->. exfalso. apply Hn'.
      apply list_elem_of_fmap. by exists (n, v).
Qed.

Lemma fields_loop_wf (hc : bool) (ms : list (string * pyval)) :
  forallb (λ m, if String.eqb m.1 "choices" then wf_choices m.2 else true) ms = true →
  final (fields_loop hc ms) = None ∧
  ∀ f, f ∈ yields (fields_loop hc ms) →
    ∃ v, (f, v) ∈ ms ∧
      if String.eqb f "choices"
      then ∃ l, v = VList l ∧ wf_choices v = true
      else ∃ s, v = VI18n s.
Proof.
  induction ms as [|[name value] ms IH]; cbn [forallb fields_loop fst snd].
  - intros _. split; [done|]. intros f Hf. inversion Hf.
  - intros Hwf. apply andb_prop in Hwf as [Hhd Htl].
    destruct (IH Htl) as [IHf IHy].
    assert (Hstep : ∀ f, f ∈ yields (fields_loop hc ms) →
      ∃ v, (f, v) ∈ (name, value) :: ms ∧
        if String.eqb f "choices"
        then ∃ l, v = VList l ∧ wf_choices v = true
        else ∃ s, v = VI18n s).
    { intros f Hf. destruct (IHy f Hf) as (v & Hv & Hk). exists v.
      split; [by right|done]. }
    destruct (String.eqb name "value" && hc); [done|].
    destruct (is_i18n value) eqn:Hi.
    + split; [done|]. intros f Hf. cbn in Hf.
      apply elem_of_cons in Hf as [->|Hf]; [|by apply Hstep].
      exists value. split; [by left|].
      destruct (String.eqb name "choices"); [by destruct value|].
      destruct value; try done. by eexists.
    + destruct (String.eqb name "choices") eqn:Hn; [|done].
      destruct (any_ok truthy_nat (iter_i18n_choices value)) as [b Hb];
        [by apply wf_choices_final|].
      rewrite Hb. destruct b; [|done].
      split; [done|]. intros f Hf. cbn in Hf.
      apply elem_of_cons in Hf as [->|Hf]; [|by apply Hstep].
      exists value. split; [by left|]. rewrite Hn.
      destruct value as [| | | | |l]; try done. by exists l.
Qed.

Lemma wf_block_NoDup (c : Block) : wf_block c = true → NoDup (members c).*1.
Proof.
  unfold wf_block. intros H. apply andb_prop in H as [H _].
  by apply bool_decide_eq_true in H.
Qed.

Lemma iter_i18n_fields_wf (c : Block) :
  wf_block c = true →
  final (iter_i18n_fields c) = None ∧
  ∀ f, f ∈ discovered_fields c →
    if String.eqb f "choices"
    then ∃ l, getattr c "choices" = Ok (VList l) ∧ wf_choices (VList l) = true
    else ∃ s, getattr c f = Ok (VI18n s).
Proof.
  intros Hwf. pose proof (wf_block_NoDup c Hwf) as Hnd.
  unfold wf_block in Hwf. apply andb_prop in Hwf as [_ Hwf].
  destruct (fields_loop_wf (hasattr c "choices") (members c) Hwf) as [Hf Hy].
  split; [done|]. intros f Hin. destruct (Hy f Hin) as (v & Hv & Hk).
  pose proof (getattr_member c f v Hnd Hv) as Hg.
  destruct (String.eqb f "choices") eqn:Hn.
  - apply String.eqb_eq in Hn as ->. destruct Hk as (l & -> & Hk). by exists l.
  - destruct Hk as (s & ->). by exists s.
Qed.

(** Field discovery asks [any] about the indices themselves, and index 0
    is falsy: a list of choices whose only marker is its first entry is
    not a discovered field, though choice-index discovery yields it. *)
Lemma first_choice_alone_not_discovered :
  yields (iter_i18n_choices (VList [VTuple [VI18n "Yes"; VInt 1];
                                    VTuple [VStr "No"; VInt 0]])) = [0] ∧
  discovered_fields ex_first_only = [] ∧
  discovered_fields ex_dropdown = ["choices"; "label"].
Proof. by repeat split. Qed.

(** Induction on a tree, with the property known of the children. *)
Lemma Block_tree_ind (P : Block → Prop) :
  (∀ id k ms cs, Forall P cs → P (mkBlock id k ms cs)) → ∀ b, P b.
Proof.
  intros H. fix IH 1. intros [id k ms cs]. apply H.
  induction cs as [|c cs IHcs]; constructor; [apply IH|exact IHcs].
Qed.

Lemma iter_i18n_components_unfold (block : Block) :
  iter_i18n_components block
  = gen_app
      (if is_BlockContext block then
         gen_flat_map iter_i18n_components (children block)
       else Stop)
      (match any truthy_str (iter_i18n_fields block) with
       | Raise e => Fail e
       | Ok true => Yield block Stop
       | Ok false => Stop
       end).
Proof. by destruct block. Qed.

Lemma subblocks_unfold (b : Block) :
  subblocks b = b :: (if is_BlockContext b then children b ≫= subblocks else []).
Proof. by destruct b. Qed.

Lemma iter_i18n_components_wf (b : Block) :
  wf_tree b = true →
  final (iter_i18n_components b) = None ∧
  ∀ c, c ∈ discovered_components b → wf_block c = true.
Proof.
  unfold discovered_components, wf_tree.
  induction b as [id k ms cs IH] using Block_tree_ind.
  set (b := mkBlock id k ms cs) in *.
  rewrite subblocks_unfold, iter_i18n_components_unfold.
  cbn [forallb]. intros Hwf. apply andb_prop in Hwf as [Hself Hsub].
  assert (Hkids :
    final (if is_BlockContext b then gen_flat_map iter_i18n_components cs else Stop)
    = None ∧
    ∀ c, c ∈ yields (if is_BlockContext b
                     then gen_flat_map iter_i18n_components cs else Stop) →
         wf_block c = true).
  { destruct (is_BlockContext b); [|split; [done|intros c Hc; inversion Hc]].
    cbn [children b] in Hsub. clearbody b. clear Hself.
    induction cs as [|c cs IHcs]; [split; [done|intros c Hc; inversion Hc]|].
    inversion IH as [|? ? Hc Hcs]; subst.
    cbn [mbind list_bind] in Hsub. rewrite forallb_app in Hsub.
    apply andb_prop in Hsub as [Hc1 Hc2].
    destruct (Hc Hc1) as [Hcf Hcy]. destruct (IHcs Hcs Hc2) as [Hrf Hry].
    cbn [gen_flat_map]. rewrite final_gen_app, Hcf. split; [exact Hrf|].
    intros c' Hc'. rewrite yields_gen_app in Hc' by done.
    apply elem_of_app in Hc' as [Hc'|Hc']; [by apply Hcy|by apply Hry]. }
  destruct Hkids as [Hkf Hky]. cbn [children b].
  destruct (iter_i18n_fields_wf b Hself) as [Hff _].
  destruct (any_ok truthy_str (iter_i18n_fields b) Hff) as [v Hv].
  rewrite final_gen_app, Hkf, Hv. rewrite yields_gen_app by done.
  destruct v; cbn [final yields].
  - split; [done|]. intros c Hc. apply elem_of_app in Hc as [Hc|Hc]; [by apply Hky|].
    apply list_elem_of_singleton in Hc as ->. done.
  - split; [done|]. intros c Hc. rewrite app_nil_r in Hc. by apply Hky.
Qed.

(** ** Gap detector *)

Lemma lang_table_lookup (tbl : gmap string (gmap string string)) (lang s : string) :
  lang_table tbl lang !! s = tbl !! lang ≫= (λ d, d !! s).
Proof. unfold lang_table. by destruct (tbl !! lang). Qed.

Lemma marker_gap (tbl : gmap string (gmap string string)) (lang s : string) :
  ∃ b, negb <$> dict_contains (lang_table tbl lang) (VI18n s) = Ok b ∧
       (b = true ↔ absent_key tbl lang (VI18n s)).
Proof.
  unfold dict_contains, absent_key. cbn. rewrite <- lang_table_lookup.
  eexists. split; [done|].
  destruct (lang_table tbl lang !! s) as [t|] eqn:Hs.
  - rewrite bool_decide_eq_true_2 by by eexists. done.
  - rewrite bool_decide_eq_false_2 by by intros [? ?]. done.
Qed.

(** The gaps of one field, lines 89-100. *)
Lemma field_gap (tbl : gmap string (gmap string string)) (lang : string)
    (c : Block) (f : string) :
  wf_block c = true → f ∈ discovered_fields c →
  ∃ b, field_is_new tbl lang c f = Ok b ∧
       (b = true ↔ ∃ v, v ∈ field_values c f ∧ absent_key tbl lang v).
Proof.
  intros Hwf Hf. destruct (iter_i18n_fields_wf c Hwf) as [_ Hfields].
  specialize (Hfields f Hf). unfold field_values, field_is_new.
  destruct (String.eqb f "choices").
  - destruct Hfields as (l & -> & Hl). cbn [mbind result_bind].
    destruct (for_any_spec (iter_i18n_choices (VList l))
                (λ idx, value ← choice_display (VList l) idx;
                        negb <$> dict_contains (lang_table tbl lang) value)
                (λ idx, ∃ v, display_half <$> l !! idx = Some v ∧ absent_key tbl lang v))
      as (b & Hb & Hiff).
    + by apply wf_choices_final.
    + intros idx Hidx.
      destruct (wf_choices_display l idx Hl Hidx) as (e & s & Hi & Hd & ->).
      cbn [mbind result_bind].
      destruct (marker_gap tbl lang s) as (b & Hb & Hiff).
      exists b. split; [done|]. rewrite Hiff, Hi. cbn. rewrite Hd. split.
      * intros Ha. by exists (VI18n s).
      * by intros (v & [= <-] & Ha).
    + exists b. split; [done|]. rewrite Hiff. split.
      * intros (idx & Hidx & v & Hv & Ha). exists v. split; [|done].
        apply list_elem_of_omap. by exists idx.
      * intros (v & Hv & Ha). apply list_elem_of_omap in Hv as (idx & Hidx & Hv).
        exists idx. split; [done|]. by exists v.
  - destruct Hfields as (s & ->). cbn [mbind result_bind].
    destruct (marker_gap tbl lang s) as (b & Hb & Hiff).
    exists b. split; [done|]. rewrite Hiff. split.
    + intros Ha. exists (VI18n s). split; [by left|done].
    + intros (v & Hv & Ha). by apply list_elem_of_singleton in Hv as ->.
Qed.

Lemma for_any_total {A} (g : gen A) (body : A → result bool) :
  final g = None → (∀ x, x ∈ yields g → ∃ b, body x = Ok b) →
  ∃ b, for_any g body = Ok b.
Proof.
  intros Hf Hb.
  destruct (for_any_spec g body (λ x, body x = Ok true) Hf) as (b & H & _);
    [|by exists b].
  intros x Hx. destruct (Hb x Hx) as [b ->]. exists b. split; [done|].
  split; [by intros ->|by intros [= ->]].
Qed.

(** The gap detector returns on a well-formed tree. *)
Lemma has_new_i18n_fields_total (block : Block) (langs : list string)
    (tbl : gmap string (gmap string string)) :
  wf_tree block = true → ∃ b, has_new_i18n_fields block langs tbl = Ok b.
Proof.
  intros Hwf. destruct (iter_i18n_components_wf block Hwf) as [Hfin Hcs].
  unfold has_new_i18n_fields. rewrite (gen_list_ok _ Hfin). cbn [mbind result_bind].
  apply for_any_total; [apply final_gen_of_list|]. intros lang _.
  apply for_any_total; [apply final_gen_of_list|]. intros c Hc.
  rewrite yields_gen_of_list in Hc.
  apply for_any_total; [by apply iter_i18n_fields_wf, Hcs|].
  intros f Hf. destruct (field_gap tbl lang c f (Hcs c Hc) Hf) as (b & Hb & _).
  by exists b.
Qed.

(** *** Whenever the gap detector returns *)

Lemma gen_list_inv {A} (g : gen A) (l : list A) :
  gen_list g = Ok l → final g = None ∧ l = yields g.
Proof.
  revert l. induction g as [|e|x g IH]; cbn; intros l Hl; [by injection Hl|done|].
  destruct (gen_list g) as [xs|]; [|done]. cbn in Hl. injection Hl as <-.
  destruct (IH xs eq_refl) as [Hf ->]. done.
Qed.

(** A loop with an early [return True] that returns: the answer is
    whether the body says yes somewhere, whatever would have been raised
    after the point of return. *)
Lemma for_any_sound {A} (g : gen A) (body : A → result bool) (P : A → Prop)
    (b : bool) :
  for_any g body = Ok b →
  (∀ x c, x ∈ yields g → body x = Ok c → (c = true ↔ P x)) →
  (b = true ↔ ∃ x, x ∈ yields g ∧ P x).
Proof.
  induction g as [|e|x g IH]; cbn [for_any yields]; intros Hb Hbody.
  - injection Hb as <-. split; [done|]. intros (x & Hx & _). inversion Hx.
  - done.
  - destruct (body x) as [[|]|err] eqn:Hx; [| |done].
    + injection Hb as <-. split; [|done]. intros _. exists x.
      split; [by left|]. by apply (Hbody x true); [left|..].
    + rewrite (IH Hb); [|intros y c Hy; apply Hbody; by right]. split.
      * intros (y & Hy & HPy). exists y. split; [by right|done].
      * intros (y & Hy & HPy). apply elem_of_cons in Hy as [->|Hy]; [|by exists y].
        by apply (Hbody x false) in HPy; [|left|].
Qed.

Lemma gap_sound tbl lang (v : pyval) (c : bool) :
  negb <$> dict_contains (lang_table tbl lang) v = Ok c →
  (c = true ↔ absent_key tbl lang v).
Proof.
  unfold dict_contains, absent_key. destruct (hashable v); [|done].
  cbn. intros [= <-]. destruct (text_of v) as [s|]; [|done].
  rewrite <- lang_table_lookup.
  destruct (lang_table tbl lang !! s) as [t|] eqn:Hs.
  - rewrite bool_decide_eq_true_2 by by eexists. done.
  - rewrite bool_decide_eq_false_2 by by intros [? ?]. done.
Qed.

(** What [choice_display] returns is the display half of the entry. *)
Lemma choice_display_inv (l : list pyval) (idx : nat) (value : pyval) :
  choice_display (VList l) idx = Ok value →
  ∃ e, l !! idx = Some e ∧ value = display_half e.
Proof.
  unfold choice_display. cbn [getitem]. destruct (l !! idx) as [e|]; [|done].
  cbn [mbind result_bind]. intros Hv. exists e. split; [done|].
  destruct e as [| | | |[|k items]|]; cbn in Hv; by simplify_eq.
Qed.

Lemma field_gap_sound tbl lang (c : Block) (f : string) (b : bool) :
  field_is_new tbl lang c f = Ok b →
  (b = true ↔ ∃ v, v ∈ field_values c f ∧ absent_key tbl lang v).
Proof.
  unfold field_is_new, field_values. destruct (String.eqb f "choices").
  - destruct (getattr c "choices") as [choices|]; [|done]. cbn [mbind result_bind].
    intros Hb.
    assert (Hnone : (∀ l, choices ≠ VList l) →
              b = true ↔ ∃ v : pyval, v ∈ @nil pyval ∧ absent_key tbl lang v).
    { intros Hnl. destruct choices as [| | | | |l']; [..|by destruct (Hnl l')];
        cbn in Hb; injection Hb as <-;
        (split; [done|]; intros (v & Hv & _); inversion Hv). }
    destruct choices as [| | | | |l]; try (by apply Hnone).
    rewrite (for_any_sound _ _
               (λ idx, ∃ v, display_half <$> l !! idx = Some v ∧ absent_key tbl lang v)
               _ Hb).
    + split.
      * intros (idx & Hidx & v & Hv & Ha). exists v. split; [|done].
        apply list_elem_of_omap. by exists idx.
      * intros (v & Hv & Ha). apply list_elem_of_omap in Hv as (idx & Hidx & Hv).
        exists idx. split; [done|]. by exists v.
    + intros idx c0 _ Hbody.
      destruct (choice_display (VList l) idx) as [value|] eqn:Hd; [|done].
      cbn [mbind result_bind] in Hbody.
      destruct (choice_display_inv l idx value Hd) as (e & Hi & ->).
      rewrite (gap_sound _ _ _ _ Hbody), Hi. cbn. split.
      * intros Ha. by eexists.
      * by intros (v & [= <-] & Ha).
  - destruct (getattr c f) as [v|]; [|done]. cbn [mbind result_bind]. intros Hb.
    rewrite (gap_sound _ _ _ _ Hb). split.
    + intros Ha. exists v. split; [by left|done].
    + intros (v' & Hv & Ha). by apply list_elem_of_singleton in Hv as ->.
Qed.



(** The two cases of the spec's example. *)
Lemma has_new_i18n_fields_hello :
  has_new_i18n_fields ex_hello_root ["en"] {[ "en" := ∅ ]} = Ok true ∧
  has_new_i18n_fields ex_hello_root ["en"] {[ "en" := {[ "Hello" := "Hola" ]} ]}
  = Ok false.
Proof. split; vm_compute; reflexivity. Qed.

(** ** Table builder *)

Lemma adds_nil tbl lang (r : gmap string (gmap string string)) :
  is_Some (r !! lang) → adds tbl lang [] r r.
Proof.
  intros [d Hd]. split; [done|]. exists d, d. split; [done|]. split; [done|].
  intros k. rewrite bool_decide_eq_false_2; [done|]. apply not_elem_of_nil.
Qed.

Lemma adds_is_Some tbl lang ks (r0 r : gmap string (gmap string string)) :
  adds tbl lang ks r0 r → is_Some (r !! lang).
Proof. intros (_ & d0 & d & _ & Hd & _). by exists d. Qed.

Lemma adds_app tbl lang ks1 ks2 (r0 r1 r2 : gmap string (gmap string string)) :
  adds tbl lang ks1 r0 r1 → adds tbl lang ks2 r1 r2 →
  adds tbl lang (ks1 ++ ks2) r0 r2.
Proof.
  intros (Ho1 & d0 & d1 & Hd0 & Hd1 & Hk1) (Ho2 & d1' & d2 & Hd1' & Hd2 & Hk2).
  rewrite Hd1 in Hd1'. injection Hd1' as <-.
  split; [intros l Hl; by rewrite Ho2, Ho1|].
  exists d0, d2. split; [done|]. split; [done|].
  intros k. rewrite Hk2, Hk1.
  destruct (bool_decide (k ∈ ks2)) eqn:H2.
  - apply bool_decide_eq_true in H2.
    rewrite bool_decide_eq_true_2; [done|]. apply elem_of_app. by right.
  - apply bool_decide_eq_false in H2.
    destruct (bool_decide (k ∈ ks1)) eqn:H1.
    + apply bool_decide_eq_true in H1.
      rewrite bool_decide_eq_true_2; [done|]. apply elem_of_app. by left.
    + apply bool_decide_eq_false in H1.
      rewrite bool_decide_eq_false_2; [done|]. rewrite elem_of_app. tauto.
Qed.

Lemma setitem2_adds tbl lang (k : string) (r : gmap string (gmap string string)) :
  is_Some (r !! lang) →
  ∃ r', setitem2 r lang k (translate_text tbl lang k) = Ok r' ∧
        adds tbl lang [k] r r'.
Proof.
  intros [d Hd]. unfold setitem2. rewrite Hd. eexists. split; [done|].
  split; [intros l Hl; by rewrite lookup_insert_ne|].
  exists d, (<[k := translate_text tbl lang k]> d).
  split; [done|]. split; [by rewrite lookup_insert_eq|].
  intros k'. destruct (decide (k' = k)) as [->|Hne].
  - rewrite lookup_insert_eq, bool_decide_eq_true_2; [done|]. by left.
  - rewrite lookup_insert_ne by done. rewrite bool_decide_eq_false_2; [done|].
    by intros ->%list_elem_of_singleton.
Qed.

(** A loop whose every round adds the keys of its item adds the keys of
    all items. *)
Lemma for_fold_adds {A} tbl lang (g : gen A)
    (body : A → gmap string (gmap string string) →
            result (gmap string (gmap string string)))
    (keys : A → list string) (r0 : gmap string (gmap string string)) :
  final g = None → is_Some (r0 !! lang) →
  (∀ x r, x ∈ yields g → is_Some (r !! lang) →
     ∃ r', body x r = Ok r' ∧ adds tbl lang (keys x) r r') →
  ∃ r', for_fold g body r0 = Ok r' ∧ adds tbl lang (yields g ≫= keys) r0 r'.
Proof.
  revert r0. induction g as [|e|x g IH]; cbn [final yields for_fold];
    intros r0 Hf Hr0 Hbody.
  - exists r0. split; [done|]. by apply adds_nil.
  - done.
  - destruct (Hbody x r0) as (r1 & Hr1 & Ha1); [by left|done|].
    rewrite Hr1. cbn [mbind result_bind].
    destruct (IH r1 Hf) as (r2 & Hr2 & Ha2).
    { by eapply adds_is_Some. }
    { intros y r Hy Hr. apply Hbody; [by right|done]. }
    exists r2. split; [done|]. cbn [mbind list_bind]. by eapply adds_app.
Qed.

Lemma omap_text_bind {A} (f : A → option pyval) (l : list A) :
  l ≫= (λ x, omap text_of (option_list (f x))) = omap text_of (omap f l).
Proof.
  induction l as [|x l IH]; [done|].
  cbn [mbind list_bind omap list_omap]. rewrite IH.
  destruct (f x) as [v|]; [|done]. cbn. by destruct (text_of v).
Qed.

Lemma dump_field_adds tbl lang (c : Block) (f : string)
    (r : gmap string (gmap string string)) :
  wf_block c = true → f ∈ discovered_fields c → is_Some (r !! lang) →
  ∃ r', dump_field tbl lang c f r = Ok r' ∧
        adds tbl lang (omap text_of (field_values c f)) r r'.
Proof.
  intros Hwf Hf Hr. destruct (iter_i18n_fields_wf c Hwf) as [_ Hfields].
  specialize (Hfields f Hf). unfold field_values, dump_field.
  destruct (String.eqb f "choices").
  - destruct Hfields as (l & -> & Hl). cbn [mbind result_bind].
    destruct (for_fold_adds tbl lang (iter_i18n_choices (VList l))
      (λ idx ret,
         value ← choice_display (VList l) idx;
         value ← concat_empty value;
         setitem2 ret lang value (translate_text tbl lang value))
      (λ idx, omap text_of (option_list (display_half <$> l !! idx))) r)
      as (r' & Hr' & Ha); [by apply wf_choices_final|done| |].
    + intros idx r1 Hidx Hr1.
      destruct (wf_choices_display l idx Hl Hidx) as (e & s & Hi & Hd & ->).
      cbn [mbind result_bind concat_empty text_of].
      rewrite Hi. cbn. rewrite Hd. cbn. by apply setitem2_adds.
    + exists r'. split; [done|].
      by rewrite omap_text_bind in Ha.
  - destruct Hfields as (s & ->). cbn [mbind result_bind concat_empty text_of].
    by apply setitem2_adds.
Qed.

Lemma dump_tree_adds tbl lang (block : Block) (r : gmap string (gmap string string)) :
  wf_tree block = true → is_Some (r !! lang) →
  ∃ r',
    for_fold (gen_of_list (discovered_components block)) (λ component ret,
      for_fold (iter_i18n_fields component) (dump_field tbl lang component) ret) r
    = Ok r' ∧
    adds tbl lang (discovered_keys block) r r'.
Proof.
  intros Hwf Hr. destruct (iter_i18n_components_wf block Hwf) as [_ Hcs].
  destruct (for_fold_adds tbl lang (gen_of_list (discovered_components block))
    (λ component ret,
       for_fold (iter_i18n_fields component) (dump_field tbl lang component) ret)
    component_keys r) as (r' & Hr' & Ha); [apply final_gen_of_list|done| |].
  - intros c r1 Hc Hr1. rewrite yields_gen_of_list in Hc.
    pose proof (Hcs c Hc) as Hwfc.
    apply (for_fold_adds tbl lang (iter_i18n_fields c) (dump_field tbl lang c)
             (λ f, omap text_of (field_values c f)) r1);
      [by apply iter_i18n_fields_wf|done|].
    intros f r2 Hf Hr2. by apply dump_field_adds.
  - exists r'. split; [done|]. by rewrite yields_gen_of_list in Ha.
Qed.

(** A loop over a list with an invariant on the items done so far. *)
Lemma for_fold_list_inv {A S} (l : list A) (body : A → S → result S)
    (I : list A → S → Prop) (s0 : S) :
  I [] s0 →
  (∀ done_ x s, I done_ s → ∃ s', body x s = Ok s' ∧ I (done_ ++ [x]) s') →
  ∃ s', for_fold (gen_of_list l) body s0 = Ok s' ∧ I l s'.
Proof.
  intros H0 Hstep.
  assert (Hgen : ∀ pre s, I pre s →
            ∃ s', for_fold (gen_of_list l) body s = Ok s' ∧ I (pre ++ l) s').
  { induction l as [|x l IH]; intros pre s Hpre; cbn [gen_of_list for_fold].
    - exists s. by rewrite app_nil_r.
    - destruct (Hstep pre x s Hpre) as (s1 & Hs1 & HI1). rewrite Hs1.
      cbn [mbind result_bind]. destruct (IH (pre ++ [x]) s1 HI1) as (s2 & Hs2 & HI2).
      exists s2. split; [done|]. by rewrite <- app_assoc in HI2. }
  apply (Hgen [] s0 H0).
Qed.

Lemma placeholder_dict_lookup tbl (keys : list string) (lang k : string) :
  placeholder_dict tbl keys lang !! k
  = if bool_decide (k ∈ keys)
    then Some (default k (tbl !! lang ≫= (λ d, d !! k)))
    else None.
Proof.
  unfold placeholder_dict. induction keys as [|k' keys IH]; cbn.
  - rewrite lookup_empty, bool_decide_eq_false_2; [done|]. apply not_elem_of_nil.
  - destruct (decide (k = k')) as [->|Hne].
    + rewrite lookup_insert_eq, bool_decide_eq_true_2; [done|]. by left.
    + rewrite lookup_insert_ne by done. rewrite IH.
      destruct (bool_decide (k ∈ keys)) eqn:Hk.
      * apply bool_decide_eq_true in Hk. rewrite bool_decide_eq_true_2; [done|].
        by right.
      * apply bool_decide_eq_false in Hk. rewrite bool_decide_eq_false_2; [done|].
        intros [?|?]%elem_of_cons; done.
Qed.

(** What [dump_blocks] returns on a well-formed tree: the languages given,
    each with the dictionary the spec describes. *)
Lemma dump_blocks_lookup (block : Block) (langs : list string)
    (tbl : gmap string (gmap string string)) :
  wf_tree block = true →
  ∃ ret, dump_blocks block langs tbl = Ok ret ∧
    ∀ l, ret !! l = if bool_decide (l ∈ langs)
                    then Some (placeholder_dict tbl (discovered_keys block) l)
                    else None.
Proof.
  intros Hwf. destruct (iter_i18n_components_wf block Hwf) as [Hfin _].
  unfold dump_blocks. rewrite (gen_list_ok _ Hfin). cbn [mbind result_bind].
  fold (discovered_components block).
  apply (for_fold_list_inv langs _
    (λ done_ ret, ∀ l, ret !! l
       = if bool_decide (l ∈ done_)
         then Some (placeholder_dict tbl (discovered_keys block) l)
         else None)).
  - intros l. rewrite lookup_empty, bool_decide_eq_false_2; [done|].
    apply not_elem_of_nil.
  - intros done_ lang ret Hinv.
    destruct (dump_tree_adds tbl lang block (<[lang := ∅]> ret) Hwf)
      as (r' & Hr' & (Hother & d0 & d & Hd0 & Hd & Hk)).
    { rewrite lookup_insert_eq. by eexists. }
    exists r'. split; [exact Hr'|]. intros l.
    rewrite lookup_insert_eq in Hd0. injection Hd0 as <-.
    destruct (decide (l = lang)) as [->|Hne].
    + rewrite Hd, bool_decide_eq_true_2 by (apply elem_of_app; right; by left).
      f_equal. apply map_eq. intros k.
      rewrite Hk, placeholder_dict_lookup, lookup_empty.
      unfold translate_text. by rewrite lang_table_lookup.
    + rewrite Hother, lookup_insert_ne, Hinv by done.
      destruct (bool_decide (l ∈ done_)) eqn:Hl.
      * apply bool_decide_eq_true in Hl. rewrite bool_decide_eq_true_2; [done|].
        apply elem_of_app. by left.
      * apply bool_decide_eq_false in Hl. rewrite bool_decide_eq_false_2; [done|].
        intros [?|?%list_elem_of_singleton]%elem_of_app; done.
Qed.

(** *** Whenever the table builder returns *)

Lemma for_fold_adds_sound {A} tbl lang (g : gen A)
    (body : A → gmap string (gmap string string) →
            result (gmap string (gmap string string)))
    (keys : A → list string) (r0 r' : gmap string (gmap string string)) :
  for_fold g body r0 = Ok r' → is_Some (r0 !! lang) →
  (∀ x r r1, x ∈ yields g → is_Some (r !! lang) → body x r = Ok r1 →
     adds tbl lang (keys x) r r1) →
  adds tbl lang (yields g ≫= keys) r0 r'.
Proof.
  revert r0. induction g as [|e|x g IH]; cbn [yields for_fold]; intros r0 Hr' Hr0 Hbody.
  - injection Hr' as <-. by apply adds_nil.
  - done.
  - destruct (body x r0) as [r1|] eqn:Hx; [|done]. cbn [mbind result_bind] in Hr'.
    pose proof (Hbody x r0 r1 ltac:(by left) Hr0 Hx) as Ha1.
    cbn [mbind list_bind]. eapply adds_app; [exact Ha1|].
    apply IH; [done|by eapply adds_is_Some|].
    intros y r r2 Hy. apply Hbody. by right.
Qed.

Lemma setitem2_adds_sound tbl lang (k : string)
    (r r1 : gmap string (gmap string string)) :
  is_Some (r !! lang) → setitem2 r lang k (translate_text tbl lang k) = Ok r1 →
  adds tbl lang [k] r r1.
Proof.
  intros Hr Hset. destruct (setitem2_adds tbl lang k r Hr) as (r' & Hr' & Ha).
  rewrite Hset in Hr'. by injection Hr' as <-.
Qed.

Lemma concat_empty_inv (v : pyval) (s : string) :
  concat_empty v = Ok s → text_of v = Some s.
Proof. unfold concat_empty. destruct (text_of v); [|done]. by intros [= ->]. Qed.

Lemma dump_field_sound tbl lang (c : Block) (f : string)
    (r r1 : gmap string (gmap string string)) :
  dump_field tbl lang c f r = Ok r1 → is_Some (r !! lang) →
  adds tbl lang (omap text_of (field_values c f)) r r1.
Proof.
  unfold dump_field, field_values. destruct (String.eqb f "choices").
  - destruct (getattr c "choices") as [choices|]; [|done]. cbn [mbind result_bind].
    intros Hr1 Hr.
    assert (Hnone : (∀ l, choices ≠ VList l) → adds tbl lang (omap text_of []) r r1).
    { intros Hnl. destruct choices as [| | | | |l']; [..|by destruct (Hnl l')];
        cbn in Hr1; injection Hr1 as <-; by apply adds_nil. }
    destruct choices as [| | | | |l]; try (by apply Hnone).
    rewrite <- omap_text_bind.
    apply (for_fold_adds_sound tbl lang _ _ _ _ _ Hr1 Hr).
    intros idx r2 r3 _ Hr2 Hbody.
    destruct (choice_display (VList l) idx) as [value|] eqn:Hd; [|done].
    cbn [mbind result_bind] in Hbody.
    destruct (choice_display_inv l idx value Hd) as (e & Hi & ->).
    destruct (concat_empty (display_half e)) as [s|] eqn:Hs; [|done].
    cbn [mbind result_bind] in Hbody. apply concat_empty_inv in Hs.
    rewrite Hi. cbn. rewrite Hs. by apply setitem2_adds_sound.
  - destruct (getattr c f) as [v|]; [|done]. cbn [mbind result_bind].
    destruct (concat_empty v) as [s|] eqn:Hs; [|done]. cbn [mbind result_bind].
    apply concat_empty_inv in Hs. intros Hr1 Hr. cbn. rewrite Hs.
    by apply setitem2_adds_sound.
Qed.

Lemma for_fold_list_sound {A S} (l : list A) (body : A → S → result S)
    (I : list A → S → Prop) (s0 s' : S) :
  for_fold (gen_of_list l) body s0 = Ok s' → I [] s0 →
  (∀ done_ x s s1, I done_ s → body x s = Ok s1 → I (done_ ++ [x]) s1) →
  I l s'.
Proof.
  intros Hrun H0 Hstep.
  assert (Hgen : ∀ pre s, for_fold (gen_of_list l) body s = Ok s' → I pre s →
            I (pre ++ l) s').
  { clear Hrun H0.
    induction l as [|x l IH]; intros pre s Hs Hpre; cbn [gen_of_list for_fold] in Hs.
    - injection Hs as <-. by rewrite app_nil_r.
    - destruct (body x s) as [s1|] eqn:Hx; [|done]. cbn [mbind result_bind] in Hs.
      rewrite (cons_middle x pre l), app_assoc. apply (IH _ s1 Hs).
      by eapply Hstep. }
  by apply (Hgen [] s0).
Qed.

Lemma dump_blocks_sound (block : Block) (langs : list string)
    (tbl ret : gmap string (gmap string string)) :
  dump_blocks block langs tbl = Ok ret →
  ∀ l, ret !! l = if bool_decide (l ∈ langs)
                  then Some (placeholder_dict tbl (discovered_keys block) l)
                  else None.
Proof.
  unfold dump_blocks.
  destruct (gen_list (iter_i18n_components block)) as [components|] eqn:Hcs; [|done].
  apply gen_list_inv in Hcs as [_ ->]. cbn [mbind result_bind].
  fold (discovered_components block). intros Hret.
  apply (for_fold_list_sound langs _
    (λ done_ ret, ∀ l, ret !! l
       = if bool_decide (l ∈ done_)
         then Some (placeholder_dict tbl (discovered_keys block) l)
         else None) _ _ Hret).
  - intros l. rewrite lookup_empty, bool_decide_eq_false_2; [done|].
    apply not_elem_of_nil.
  - intros done_ lang r r1 Hinv Hbody.
    assert (Ha : adds tbl lang (discovered_keys block) (<[lang := ∅]> r) r1).
    { pose proof (for_fold_adds_sound tbl lang _ _ component_keys _ _ Hbody) as Ha.
      rewrite yields_gen_of_list in Ha. apply Ha.
      - rewrite lookup_insert_eq. by eexists.
      - intros c r2 r3 _ Hr2 Hc.
        apply (for_fold_adds_sound tbl lang _ _
                 (λ f, omap text_of (field_values c f)) _ _ Hc Hr2).
        intros f r4 r5 _ Hr4 Hf. by apply dump_field_sound. }
    destruct Ha as (Hother & d0 & d & Hd0 & Hd & Hk). intros l.
    rewrite lookup_insert_eq in Hd0. injection Hd0 as <-.
    destruct (decide (l = lang)) as [->|Hne].
    + rewrite Hd, bool_decide_eq_true_2 by (apply elem_of_app; right; by left).
      f_equal. apply map_eq. intros k.
      rewrite Hk, placeholder_dict_lookup, lookup_empty.
      unfold translate_text. by rewrite lang_table_lookup.
    + rewrite Hother, lookup_insert_ne, Hinv by done.
      destruct (bool_decide (l ∈ done_)) eqn:Hl.
      * apply bool_decide_eq_true in Hl. rewrite bool_decide_eq_true_2; [done|].
        apply elem_of_app. by left.
      * apply bool_decide_eq_false in Hl. rewrite bool_decide_eq_false_2; [done|].
        intros [?|?%list_elem_of_singleton]%elem_of_app; done.
Qed.



(** The spec's example of carrying translations forward. *)
Lemma dump_blocks_hello :
  dump_blocks ex_hello_root ["es"; "fr"] {[ "es" := {[ "Hello" := "Hola" ]} ]}
  = Ok {[ "es" := {[ "Hello" := "Hola" ]}; "fr" := {[ "Hello" := "Hello" ]} ]}.
Proof. vm_compute. reflexivity. Qed.

(** ** Translation applier *)

(** A loop with an invariant on the items already consumed. *)
Lemma for_fold_inv {A S} (g : gen A) (body : A → S → result S)
    (I : list A → S → Prop) (s0 : S) :
  final g = None → I [] s0 →
  (∀ done_ x rest s, yields g = done_ ++ x :: rest → I done_ s →
     ∃ s', body x s = Ok s' ∧ I (done_ ++ [x]) s') →
  ∃ s', for_fold g body s0 = Ok s' ∧ I (yields g) s'.
Proof.
  intros Hf H0 Hstep.
  assert (Hgen : ∀ g' pre s, final g' = None → yields g = pre ++ yields g' →
            I pre s → ∃ s', for_fold g' body s = Ok s' ∧ I (yields g) s').
  { induction g' as [|e|x g' IH]; cbn [final yields for_fold]; intros pre s Hf' Hy Hpre.
    - exists s. rewrite Hy, app_nil_r. done.
    - done.
    - destruct (Hstep pre x (yields g') s Hy Hpre) as (s1 & Hs1 & HI1).
      rewrite Hs1. cbn [mbind result_bind].
      apply (IH (pre ++ [x]) s1 Hf'); [|done]. by rewrite <- app_assoc. }
  by apply (Hgen g [] s0).
Qed.

Lemma translate_marker tbl lang (s : string) :
  translate tbl lang (VI18n s) = Ok (lookup_or_self tbl lang (VI18n s)).
Proof.
  unfold translate, lookup_or_self. cbn. by rewrite lang_table_lookup.
Qed.

Lemma positions_NoDup (p : nat → bool) (i n : nat) : NoDup (List.filter p (seq i n)).
Proof. apply NoDup_ListNoDup, List.NoDup_filter, List.seq_NoDup. Qed.

Lemma iter_i18n_choices_NoDup (l : list pyval) :
  wf_choices (VList l) = true → NoDup (yields (iter_i18n_choices (VList l))).
Proof.
  destruct l as [|c0 l]; [intros _; constructor|]. intros Hwf.
  cbn [iter_i18n_choices]. destruct (is_tuple c0) eqn:Hc0.
  - assert (Hu : Forall unpacks (c0 :: l)).
    { eapply Forall_impl; [by apply wf_choices_pairs|]. intros e. apply is_pair_unpacks. }
    destruct (iter_pairs_all_unpack 0 _ Hu) as [_ ->]. apply positions_NoDup.
  - destruct (iter_plain_yields 0 (c0 :: l)) as [_ ->]. apply positions_NoDup.
Qed.

(** Lines 175-183 on a well-formed list. *)
Lemma rebuild_choices_ok tbl lang (c : Block) (l : list pyval) :
  getattr c "choices" = Ok (VList l) → wf_choices (VList l) = true →
  rebuild_choices tbl lang c = Ok (VList (rebuilt_choices tbl lang l)).
Proof.
  intros Hg Hwf. unfold rebuild_choices. rewrite Hg. cbn [mbind result_bind list_copy].
  pose proof (iter_i18n_choices_NoDup l Hwf) as Hnd.
  destruct (for_fold_inv (iter_i18n_choices (VList l)) (rebuild_entry tbl lang)
    (λ done_ cur, length cur = length l ∧
       ∀ j e, l !! j = Some e →
         cur !! j = Some (if bool_decide (j ∈ done_)
                          then VTuple [lookup_or_self tbl lang (display_half e);
                                       value_half e]
                          else e)) l) as (l' & Hl' & Hlen & Hlook).
  - by apply wf_choices_final.
  - split; [done|]. intros j e Hj. rewrite bool_decide_eq_false_2; [done|].
    apply not_elem_of_nil.
  - intros done_ idx rest cur Hy [Hlen Hcur].
    assert (Hin : idx ∈ yields (iter_i18n_choices (VList l))).
    { rewrite Hy. apply elem_of_app. right. by left. }
    assert (Hfresh : idx ∉ done_).
    { rewrite Hy in Hnd. apply NoDup_app in Hnd as (_ & Hdisj & _).
      intros Hd. apply (Hdisj idx Hd). by left. }
    destruct (wf_choices_yield l idx Hwf Hin) as (e & s & Hi & Hd & He).
    pose proof (Hcur idx e Hi) as Hci.
    rewrite bool_decide_eq_false_2 in Hci by done.
    assert (Hstep : rebuild_entry tbl lang idx cur
              = Ok (<[idx := VTuple [lookup_or_self tbl lang (display_half e);
                                     value_half e]]> cur)).
    { unfold rebuild_entry. cbn [getitem]. rewrite Hci. cbn [mbind result_bind].
      destruct He as [[v ->]| ->]; cbn [is_tuple unpack2 mbind result_bind];
        rewrite translate_marker; done. }
    eexists. split; [exact Hstep|]. split; [by rewrite length_insert|].
    intros j e' Hj. destruct (decide (j = idx)) as [->|Hne].
    + rewrite Hi in Hj. injection Hj as <-.
      rewrite list_lookup_insert_eq by (rewrite Hlen; by eapply lookup_lt_Some).
      rewrite bool_decide_eq_true_2; [done|]. apply elem_of_app. right. by left.
    + rewrite list_lookup_insert_ne by done. rewrite (Hcur j e' Hj).
      destruct (bool_decide (j ∈ done_)) eqn:Hjd.
      * apply bool_decide_eq_true in Hjd. rewrite bool_decide_eq_true_2; [done|].
        apply elem_of_app. by left.
      * apply bool_decide_eq_false in Hjd. rewrite bool_decide_eq_false_2; [done|].
        intros [?|?%list_elem_of_singleton]%elem_of_app; done.
  - rewrite Hl'. cbn [fmap result_fmap]. do 2 f_equal.
    apply list_eq. intros j. unfold rebuilt_choices, translatable_at.
    rewrite list_lookup_imap.
    destruct (l !! j) as [e|] eqn:Hj; cbn.
    + by rewrite (Hlook j e Hj).
    + apply lookup_ge_None. rewrite Hlen. by apply lookup_ge_None.
Qed.

(** The generator of line 176 runs over the list that the loop body
    changes.  Running the two step by step on the shared list gives what
    the loop over the indices of the untouched copy gives: the body writes
    at the index just yielded and the generator only looks further on. *)
Lemma rebuild_entry_insert tbl lang (i : nat) (cur cur' : list pyval) :
  rebuild_entry tbl lang i cur = Ok cur' → ∃ x, cur' = <[i := x]> cur.
Proof.
  unfold rebuild_entry. destruct (getitem (VList cur) i) as [e|]; [|done].
  cbn [mbind result_bind]. destruct (is_tuple e).
  - destruct (unpack2 e) as [[k v]|]; [|done]. cbn [mbind result_bind].
    destruct (translate tbl lang k); [|done]. cbn. intros [= <-]. by eexists.
  - destruct (translate tbl lang e); [|done]. cbn. intros [= <-]. by eexists.
Qed.

Lemma rebuild_shared_trace tbl lang (pairs : bool) (rest : list pyval) :
  ∀ (i : nat) (cur : list pyval), drop i cur = rest →
    rebuild_shared tbl lang pairs (length rest) i cur
    = for_fold (if pairs then iter_pairs i rest else iter_plain i rest)
        (rebuild_entry tbl lang) cur.
Proof.
  induction rest as [|e rest IH]; intros i cur Hdrop.
  - by destruct pairs.
  - assert (Hi : cur !! i = Some e).
    { rewrite <- (Nat.add_0_r i), <- lookup_drop, Hdrop. done. }
    assert (Hnext : ∀ x, drop (S i) (<[i := x]> cur) = rest).
    { intros x. rewrite drop_insert_lt by lia.
      by rewrite <- (Nat.add_1_r i), <- drop_drop, Hdrop. }
    assert (Hsame : drop (S i) cur = rest).
    { by rewrite <- (Nat.add_1_r i), <- drop_drop, Hdrop. }
    cbn [length rebuild_shared]. rewrite Hi.
    assert (Hhit :
      (cur' ← rebuild_entry tbl lang i cur;
       rebuild_shared tbl lang pairs (length rest) (S i) cur')
      = for_fold (Yield i (if pairs then iter_pairs (S i) rest
                           else iter_plain (S i) rest))
          (rebuild_entry tbl lang) cur).
    { cbn [for_fold].
      destruct (rebuild_entry tbl lang i cur) as [cur'|err] eqn:Hbody; [|done].
      destruct (rebuild_entry_insert _ _ _ _ _ Hbody) as [x ->].
      cbn [mbind result_bind]. apply IH, Hnext. }
    destruct pairs; cbn [iter_pairs iter_plain].
    + destruct (unpack2 e) as [[k v]|err]; [|done]. cbn [fmap result_fmap fst].
      destruct (is_i18n k); [by apply Hhit|by apply IH].
    + destruct (is_i18n e); [by apply Hhit|by apply IH].
Qed.

Lemma rebuild_shared_choices tbl lang (c0 : pyval) (l : list pyval) :
  rebuild_shared tbl lang (is_tuple c0) (length (c0 :: l)) 0 (c0 :: l)
  = for_fold (iter_i18n_choices (VList (c0 :: l))) (rebuild_entry tbl lang) (c0 :: l).
Proof.
  rewrite (rebuild_shared_trace tbl lang (is_tuple c0) (c0 :: l) 0 (c0 :: l) eq_refl).
  cbn [iter_i18n_choices]. by destruct (is_tuple c0).
Qed.

(** *** The handler returns on well-formed components *)

Lemma for_fold_list_total {A S} (l : list A) (body : A → S → result S) (s0 : S) :
  (∀ x s, x ∈ l → ∃ s', body x s = Ok s') →
  ∃ s', for_fold (gen_of_list l) body s0 = Ok s'.
Proof.
  revert s0. induction l as [|x l IH]; intros s0 Hbody; [by eexists|].
  cbn [gen_of_list for_fold]. destruct (Hbody x s0) as [s1 ->]; [by left|].
  cbn [mbind result_bind]. apply IH. intros y s Hy. apply Hbody. by right.
Qed.

Lemma update_of_total tbl lang (c : Block) :
  wf_block c = true → ∃ u, update_of tbl lang c (discovered_fields c) = Ok u.
Proof.
  intros Hwf. destruct (iter_i18n_fields_wf c Hwf) as [_ Hfields].
  unfold update_of. apply for_fold_list_total. intros f u Hf.
  specialize (Hfields f Hf). unfold update_field.
  destruct (String.eqb f "choices").
  - destruct Hfields as (l & Hg & Hl). rewrite (rebuild_choices_ok _ _ _ _ Hg Hl).
    by eexists.
  - destruct Hfields as (s & Hg). rewrite Hg. cbn [mbind result_bind].
    rewrite translate_marker. by eexists.
Qed.

Lemma on_lang_change_total (components : list Block) tbl (lang : string) :
  Forall (λ c, wf_block c = true) components →
  ∃ r, on_lang_change components tbl lang = Ok r.
Proof.
  intros Hwf. unfold on_lang_change.
  destruct (for_fold_list_total components
    (λ component outputs,
       fields ← gen_list (iter_i18n_fields component);
       if component_eq_str component lang && bool_decide ("value" ∈ fields) then
         Raise (ValueError "'lang' component can't has I18nStrings as value")
       else
         modified ← update_of tbl lang component fields;
         Ok (outputs ++ [modified])) []) as [outputs ->].
  - intros c outputs Hc. rewrite Forall_forall in Hwf. specialize (Hwf c Hc).
    destruct (iter_i18n_fields_wf c Hwf) as [Hfin _].
    rewrite (gen_list_ok _ Hfin). cbn [mbind result_bind component_eq_str andb].
    destruct (update_of_total tbl lang c Hwf) as [u Hu].
    fold (discovered_fields c). rewrite Hu. by eexists.
  - cbn [mbind result_bind]. destruct outputs as [|u [|u' outputs]]; by eexists.
Qed.

Lemma discovered_components_wf (root : Block) :
  wf_tree root = true → Forall (λ c, wf_block c = true) (discovered_components root).
Proof.
  intros Hwf. apply Forall_forall. by apply iter_i18n_components_wf.
Qed.

(** *** Whenever the handler returns *)

Lemma for_fold_sound {A S} (g : gen A) (body : A → S → result S)
    (I : list A → S → Prop) (s0 s' : S) :
  for_fold g body s0 = Ok s' → I [] s0 →
  (∀ done_ x rest s s1, yields g = done_ ++ x :: rest → I done_ s →
     body x s = Ok s1 → I (done_ ++ [x]) s1) →
  I (yields g) s'.
Proof.
  intros Hrun H0 Hstep.
  assert (Hgen : ∀ g' pre s, yields g = pre ++ yields g' →
            for_fold g' body s = Ok s' → I pre s → I (yields g) s').
  { clear Hrun H0.
    induction g' as [|e|x g' IH]; cbn [yields for_fold]; intros pre s Hy Hs Hpre.
    - injection Hs as <-. by rewrite Hy, app_nil_r.
    - done.
    - destruct (body x s) as [s1|] eqn:Hx; [|done]. cbn [mbind result_bind] in Hs.
      apply (IH (pre ++ [x]) s1); [by rewrite <- app_assoc|done|].
      by eapply Hstep. }
  by apply (Hgen g [] s0).
Qed.

Lemma iter_pairs_yield (i : nat) (l : list pyval) (j : nat) :
  j ∈ yields (iter_pairs i l) →
  i ≤ j ∧ ∃ e k v, l !! (j - i) = Some e ∧ unpack2 e = Ok (k, v) ∧ is_i18n k = true.
Proof.
  revert i. induction l as [|e l IH]; intros i; cbn [iter_pairs].
  - intros Hj. inversion Hj.
  - destruct (unpack2 e) as [[k v]|] eqn:He; [|intros Hj; inversion Hj].
    assert (Hrest : j ∈ yields (iter_pairs (S i) l) →
      i ≤ j ∧ ∃ e0 k0 v0, (e :: l) !! (j - i) = Some e0 ∧
                           unpack2 e0 = Ok (k0, v0) ∧ is_i18n k0 = true).
    { intros Hj. destruct (IH (S i) Hj) as (Hle & e0 & k0 & v0 & Hl & Hu & Hk).
      split; [lia|]. exists e0, k0, v0.
      replace (j - i) with (S (j - S i)) by lia. done. }
    destruct (is_i18n k) eqn:Hk; [|exact Hrest].
    cbn [yields]. intros [->|Hj]%elem_of_cons; [|by apply Hrest].
    split; [done|]. exists e, k, v. by rewrite Nat.sub_diag.
Qed.

Lemma iter_plain_yield (i : nat) (l : list pyval) (j : nat) :
  j ∈ yields (iter_plain i l) →
  i ≤ j ∧ ∃ e, l !! (j - i) = Some e ∧ is_i18n e = true.
Proof.
  revert i. induction l as [|e l IH]; intros i; cbn [iter_plain].
  - intros Hj. inversion Hj.
  - assert (Hrest : j ∈ yields (iter_plain (S i) l) →
      i ≤ j ∧ ∃ e0, (e :: l) !! (j - i) = Some e0 ∧ is_i18n e0 = true).
    { intros Hj. destruct (IH (S i) Hj) as (Hle & e0 & Hl & Hk).
      split; [lia|]. exists e0. replace (j - i) with (S (j - S i)) by lia. done. }
    destruct (is_i18n e) eqn:Hk; [|exact Hrest].
    cbn [yields]. intros [->|Hj]%elem_of_cons; [|by apply Hrest].
    split; [done|]. exists e. by rewrite Nat.sub_diag.
Qed.

Lemma iter_pairs_NoDup (i : nat) (l : list pyval) : NoDup (yields (iter_pairs i l)).
Proof.
  revert i. induction l as [|e l IH]; intros i; cbn [iter_pairs]; [constructor|].
  destruct (unpack2 e) as [[k v]|]; [|constructor].
  destruct (is_i18n k); [|apply IH]. cbn [yields]. constructor; [|apply IH].
  intros Hi. apply iter_pairs_yield in Hi as [Hle _]. lia.
Qed.

Lemma iter_plain_NoDup (i : nat) (l : list pyval) : NoDup (yields (iter_plain i l)).
Proof.
  revert i. induction l as [|e l IH]; intros i; cbn [iter_plain]; [constructor|].
  destruct (is_i18n e); [|apply IH]. cbn [yields]. constructor; [|apply IH].
  intros Hi. apply iter_plain_yield in Hi as [Hle _]. lia.
Qed.

Lemma iter_i18n_choices_NoDup_any (v : pyval) : NoDup (yields (iter_i18n_choices v)).
Proof.
  destruct v as [| | | | |[|c0 l]]; try constructor.
  cbn [iter_i18n_choices]. destruct (is_tuple c0).
  - apply iter_pairs_NoDup.
  - apply iter_plain_NoDup.
Qed.

(** What choice-index discovery can point at, on any list: a pair or a
    two-item list whose first item is a marker, or a marker. *)
Lemma yielded_entry (l : list pyval) (j : nat) :
  j ∈ yields (iter_i18n_choices (VList l)) →
  ∃ e, l !! j = Some e ∧ (marker_entry e ∨ ∃ s v, e = VList [VI18n s; v]).
Proof.
  destruct l as [|c0 l]; [intros Hj; inversion Hj|].
  cbn [iter_i18n_choices]. destruct (is_tuple c0).
  - intros Hj. apply iter_pairs_yield in Hj as (_ & e & k & v & Hl & Hu & Hk).
    rewrite Nat.sub_0_r in Hl. exists e. split; [done|].
    destruct k as [| | |s| |]; try done.
    destruct e as [| |s'|s'|[|k' [|v' [|]]]|[|k' [|v' [|]]]]; try done.
    + by destruct s' as [|a [|b [|]]].
    + by destruct s' as [|a [|b [|]]].
    + injection Hu as -> ->. left. exists s. left. by exists v.
    + injection Hu as -> ->. right. by exists s, v.
  - intros Hj. apply iter_plain_yield in Hj as (_ & e & Hl & Hk).
    rewrite Nat.sub_0_r in Hl. exists e. split; [done|].
    destruct e as [| | |s| |]; try done. left. exists s. by right.
Qed.

Lemma translate_inv tbl lang (v t : pyval) :
  translate tbl lang v = Ok t → t = lookup_or_self tbl lang v.
Proof.
  unfold translate, lookup_or_self. destruct (hashable v); [|done].
  intros [= <-]. destruct (text_of v); [|done]. by rewrite lang_table_lookup.
Qed.

Lemma rebuild_entry_yielded tbl lang (idx : nat) (cur cur' : list pyval) (e : pyval) :
  cur !! idx = Some e →
  marker_entry e ∨ (∃ s v, e = VList [VI18n s; v]) →
  rebuild_entry tbl lang idx cur = Ok cur' →
  marker_entry e ∧
  cur' = <[idx := VTuple [lookup_or_self tbl lang (display_half e); value_half e]]> cur.
Proof.
  intros Hi He. unfold rebuild_entry. cbn [getitem]. rewrite Hi.
  cbn [mbind result_bind].
  destruct He as [[s [[v ->]| ->]]|(s & v & ->)];
    cbn [is_tuple unpack2 mbind result_bind]; [| |done].
  - rewrite translate_marker. cbn. intros [= <-]. split; [|done].
    exists s. left. by exists v.
  - rewrite translate_marker. cbn. intros [= <-]. split; [|done].
    exists s. by right.
Qed.

(** Lines 175-183 whenever they complete. *)
Lemma rebuild_choices_sound tbl lang (c : Block) (v : pyval) :
  rebuild_choices tbl lang c = Ok v →
  ∃ l, getattr c "choices" = Ok (VList l) ∧
       (∀ j e, translatable_at l j = true → l !! j = Some e → marker_entry e) ∧
       v = VList (rebuilt_choices tbl lang l).
Proof.
  unfold rebuild_choices. destruct (getattr c "choices") as [orig|]; [|done].
  cbn [mbind result_bind]. destruct orig as [| | | | |l]; try done.
  cbn [list_copy mbind result_bind].
  destruct (for_fold (iter_i18n_choices (VList l)) (rebuild_entry tbl lang) l)
    as [l'|] eqn:Hrun; [|done].
  cbn [fmap result_fmap]. intros [= <-]. exists l. split; [done|].
  pose proof (iter_i18n_choices_NoDup_any (VList l)) as Hnd.
  pose proof (for_fold_sound _ _
    (λ done_ cur, length cur = length l ∧
       (∀ j e, l !! j = Some e →
          cur !! j = Some (if bool_decide (j ∈ done_)
                           then VTuple [lookup_or_self tbl lang (display_half e);
                                        value_half e]
                           else e)) ∧
       (∀ j e, j ∈ done_ → l !! j = Some e → marker_entry e)) _ _ Hrun) as Hinv.
  destruct Hinv as (Hlen & Hlook & Hmark).
  - split; [done|]. split.
    + intros j e Hj. rewrite bool_decide_eq_false_2; [done|]. apply not_elem_of_nil.
    + intros j e Hj. inversion Hj.
  - intros done_ idx rest cur cur' Hy (Hlen & Hcur & Hmark) Hbody.
    assert (Hin : idx ∈ yields (iter_i18n_choices (VList l))).
    { rewrite Hy. apply elem_of_app. right. by left. }
    assert (Hfresh : idx ∉ done_).
    { rewrite Hy in Hnd. apply NoDup_app in Hnd as (_ & Hdisj & _).
      intros Hd. apply (Hdisj idx Hd). by left. }
    destruct (yielded_entry l idx Hin) as (e & Hi & He).
    pose proof (Hcur idx e Hi) as Hci.
    rewrite bool_decide_eq_false_2 in Hci by done.
    destruct (rebuild_entry_yielded _ _ _ _ _ _ Hci He Hbody) as [Hme ->].
    split; [by rewrite length_insert|]. split.
    + intros j e' Hj. destruct (decide (j = idx)) as [->|Hne].
      * rewrite Hi in Hj. injection Hj as <-.
        rewrite list_lookup_insert_eq by (rewrite Hlen; by eapply lookup_lt_Some).
        rewrite bool_decide_eq_true_2; [done|]. apply elem_of_app. right. by left.
      * rewrite list_lookup_insert_ne by done. rewrite (Hcur j e' Hj).
        destruct (bool_decide (j ∈ done_)) eqn:Hjd.
        -- apply bool_decide_eq_true in Hjd. rewrite bool_decide_eq_true_2; [done|].
           apply elem_of_app. by left.
        -- apply bool_decide_eq_false in Hjd. rewrite bool_decide_eq_false_2; [done|].
           intros [?|?%list_elem_of_singleton]%elem_of_app; done.
    + intros j e' [Hj|Hj%list_elem_of_singleton]%elem_of_app Hl.
      * by eapply Hmark.
      * subst j. rewrite Hi in Hl. by injection Hl as <-.
  - split.
    + intros j e Ht Hj. apply bool_decide_eq_true in Ht. by eapply Hmark.
    + f_equal. apply list_eq. intros j. unfold rebuilt_choices, translatable_at.
      rewrite list_lookup_imap. destruct (l !! j) as [e|] eqn:Hj; cbn.
      * by rewrite (Hlook j e Hj).
      * apply lookup_ge_None. rewrite Hlen. by apply lookup_ge_None.
Qed.

Lemma update_field_sound tbl lang (c : Block) (f : string) (u u1 : gmap string pyval) :
  update_field tbl lang c f u = Ok u1 →
  ∃ v, u1 = <[f := v]> u ∧ new_value tbl lang c f v.
Proof.
  unfold update_field, new_value. destruct (String.eqb f "choices").
  - destruct (rebuild_choices tbl lang c) as [v|] eqn:Hv; [|done].
    cbn [mbind result_bind]. intros [= <-]. exists v. split; [done|].
    by apply rebuild_choices_sound.
  - destruct (getattr c f) as [old|]; [|done]. cbn [mbind result_bind].
    destruct (translate tbl lang old) as [t|] eqn:Ht; [|done].
    cbn [mbind result_bind]. intros [= <-]. exists t. split; [done|].
    exists old. split; [done|]. by apply translate_inv.
Qed.

Lemma update_of_sound tbl lang (c : Block) (u : gmap string pyval) :
  update_of tbl lang c (discovered_fields c) = Ok u → update_for tbl lang c u.
Proof.
  unfold update_of, update_for. intros Hrun.
  pose proof (for_fold_sound _ _
    (λ done_ (u : gmap string pyval),
       (∀ f, f ∈ done_ → ∃ v, u !! f = Some v ∧ new_value tbl lang c f v) ∧
       (∀ f, f ∉ done_ → u !! f = None)) _ _ Hrun) as Hinv.
  rewrite yields_gen_of_list in Hinv. apply Hinv.
  - split; [intros f Hf; inversion Hf|]. intros f _. apply lookup_empty.
  - intros done_ f rest u0 u1 _ [Hin Hout] Hbody.
    destruct (update_field_sound _ _ _ _ _ _ Hbody) as (v & -> & Hv). split.
    + intros f' Hf'. destruct (decide (f' = f)) as [->|Hne].
      * exists v. by rewrite lookup_insert_eq.
      * rewrite lookup_insert_ne by done. apply Hin.
        apply elem_of_app in Hf' as [?|?%list_elem_of_singleton]; done.
    + intros f' Hf'. rewrite lookup_insert_ne.
      * apply Hout. intros ?. apply Hf', elem_of_app. by left.
      * intros ->. apply Hf', elem_of_app. right. by left.
Qed.

(** Whenever the handler returns, it returns one update per component, in
    the order of the components. *)
Lemma on_lang_change_sound (components : list Block) tbl (lang : string)
    (r : handler_ret) :
  on_lang_change components tbl lang = Ok r →
  Forall2 (update_for tbl lang) components (updates r).
Proof.
  unfold on_lang_change.
  destruct (for_fold (gen_of_list components) _ []) as [outputs|] eqn:Hrun; [|done].
  cbn [mbind result_bind]. intros Hr.
  assert (Hupd : updates r = outputs).
  { destruct outputs as [|u [|u' outputs]]; by injection Hr as <-. }
  rewrite Hupd.
  pose proof (for_fold_sound _ _
    (λ done_ outputs, Forall2 (update_for tbl lang) done_ outputs) _ _ Hrun) as Hinv.
  rewrite yields_gen_of_list in Hinv. apply Hinv; [constructor|].
  intros done_ c rest outs outs1 _ Hdone Hbody.
  destruct (gen_list (iter_i18n_fields c)) as [fields|] eqn:Hf; [|done].
  apply gen_list_inv in Hf as [_ ->]. cbn [mbind result_bind] in Hbody.
  cbn [component_eq_str andb] in Hbody. fold (discovered_fields c) in Hbody.
  destruct (update_of tbl lang c (discovered_fields c)) as [u|] eqn:Hu; [|done].
  cbn [mbind result_bind] in Hbody. injection Hbody as <-.
  apply Forall2_app; [done|].
  constructor; [by apply update_of_sound|constructor].
Qed.

Lemma rebuilt_choices_lookup tbl lang (l : list pyval) (j : nat) (e : pyval) :
  l !! j = Some e →
  rebuilt_choices tbl lang l !! j
  = Some (if translatable_at l j
          then VTuple [lookup_or_self tbl lang (display_half e); value_half e]
          else e).
Proof. intros Hj. unfold rebuilt_choices. by rewrite list_lookup_imap, Hj. Qed.

(** C5.  Whenever the language-change handler returns, on any tree, it
    returns one update per discovered component, in discovery order; where
    [choices] is a discovered field the update carries a rebuilt list of
    the same length in which every entry at a non-translatable position is
    the original entry, every entry at a translatable position is the pair
    of the table lookup of the original display half and the original value
    half, and every entry that was a pair is still a pair with the same
    value half.  On a well-formed tree the handler does return. *)
Theorem on_lang_change_choices_frame (root : Block)
    (tbl : gmap string (gmap string string)) (lang : string) :
  (∀ r, on_lang_change (discovered_components root) tbl lang = Ok r →
     length (updates r) = length (discovered_components root) ∧
     ∀ i c, discovered_components root !! i = Some c →
       "choices" ∈ discovered_fields c →
       ∃ u l l',
         updates r !! i = Some u ∧
         getattr c "choices" = Ok (VList l) ∧
         u !! "choices" = Some (VList l') ∧
         length l' = length l ∧
         ∀ j e, l !! j = Some e →
           (translatable_at l j = false → l' !! j = Some e) ∧
           (translatable_at l j = true →
              l' !! j = Some (VTuple [lookup_or_self tbl lang (display_half e);
                                      value_half e])) ∧
           (∀ k v, e = VTuple [k; v] → ∃ k', l' !! j = Some (VTuple [k'; v]))) ∧
  (wf_tree root = true →
   ∃ r, on_lang_change (discovered_components root) tbl lang = Ok r).
Proof.
  split; [|intros Hwf; by apply on_lang_change_total, discovered_components_wf].
  intros r Hr. pose proof (on_lang_change_sound _ _ _ _ Hr) as Hall.
  split; [symmetry; by eapply Forall2_length|].
  intros i c Hi Hch.
  destruct (Forall2_lookup_l _ _ _ _ _ Hall Hi) as (u & Hu & Hin & _).
  destruct (Hin "choices" Hch) as (v & Hv & l & Hg & _ & ->).
  exists u, l, (rebuilt_choices tbl lang l).
  split; [exact Hu|]. split; [exact Hg|]. split; [exact Hv|].
  split; [unfold rebuilt_choices; by rewrite length_imap|].
  intros j e Hj. rewrite (rebuilt_choices_lookup _ _ _ _ _ Hj).
  split; [by intros ->|]. split; [by intros ->|].
  intros k v ->. destruct (translatable_at l j); by eexists.
Qed.

Lemma on_lang_change_choices_frame_witness :
  let tbl : gmap string (gmap string string) := {[ "fr" := {[ "Yes" := "Oui" ]} ]} in
  let r := Many [ {[ "label" := VI18n "Hello" ]};
                  {[ "choices" := VList [VTuple [VStr "Oui"; VInt 1];
                                         VTuple [VStr "n/a"; VInt 2];
                                         VTuple [VI18n "No"; VInt 0]];
                     "label" := VI18n "Answer" ]} ] in
  on_lang_change (discovered_components ex_form_root) tbl "fr" = Ok r ∧
  wf_tree ex_form_root = true ∧
  length (updates r) = length (discovered_components ex_form_root) ∧
  ∃ r', on_lang_change (discovered_components ex_form_root) tbl "fr" = Ok r'.
Proof.
  intros tbl r.
  assert (Hrun : on_lang_change (discovered_components ex_form_root) tbl "fr" = Ok r)
    by (vm_compute; reflexivity).
  split; [exact Hrun|]. split; [reflexivity|].
  destruct (on_lang_change_choices_frame ex_form_root tbl "fr") as [Hsound Htotal].
  split; [exact (proj1 (Hsound r Hrun))|exact (Htotal eq_refl)].
Defined.

Lemma discovered_key_intro (root c : Block) (f : string) (v : pyval) (s : string) :
  c ∈ discovered_components root → f ∈ discovered_fields c →
  v ∈ field_values c f → text_of v = Some s → s ∈ discovered_keys root.
Proof.
  intros Hc Hf Hv Hs. unfold discovered_keys, component_keys.
  apply list_elem_of_bind. exists c. split; [|done].
  apply list_elem_of_bind. exists f. split; [|done].
  apply list_elem_of_omap. by exists v.
Qed.

(** C2 as it stands fails: a plain marker among the choices comes back as
    a pair, which Python does not find equal to the original string, even
    under a table that maps the key to itself. *)
Lemma on_lang_change_identity_counterexample :
  wf_tree ex_radio_root = true ∧
  identity_table ex_radio_table "en" ex_radio_root ∧
  discovered_components ex_radio_root = [ex_radio] ∧
  discovered_fields ex_radio = ["choices"] ∧
  getattr ex_radio "choices" = Ok (VList [VStr "Pick"; VI18n "Yes"]) ∧
  ∃ u, on_lang_change (discovered_components ex_radio_root) ex_radio_table "en"
       = Ok (One u) ∧
       u !! "choices" = Some (VList [VStr "Pick"; VTuple [VStr "Yes"; VI18n "Yes"]]) ∧
       ¬ py_eq (VList [VStr "Pick"; VTuple [VStr "Yes"; VI18n "Yes"]])
               (VList [VStr "Pick"; VI18n "Yes"]).
Proof.
  split; [reflexivity|]. split.
  { intros k Hk. vm_compute in Hk. apply list_elem_of_singleton in Hk as ->.
    by vm_compute. }
  split; [reflexivity|]. split; [reflexivity|]. split; [reflexivity|].
  eexists. split; [vm_compute; reflexivity|]. split; [by vm_compute|].
  unfold py_eq. cbn. discriminate.
Qed.

(** C2, amended.  Under a table that maps every discovered key to itself
    for the language selected, whenever the language-change handler
    returns, on any tree, it returns one update per discovered component,
    and for every discovered field: a field other than [choices] gets a
    value equal to the original; in [choices] every entry at a
    non-translatable position is the original entry, every entry that was a
    pair is equal to the original, and a plain entry at a translatable
    position becomes a pair whose two halves are both equal to the original
    entry.  On a well-formed tree the handler does return. *)
Theorem on_lang_change_identity (root : Block)
    (tbl : gmap string (gmap string string)) (lang : string) :
  identity_table tbl lang root →
  (∀ r, on_lang_change (discovered_components root) tbl lang = Ok r →
     ∀ i c, discovered_components root !! i = Some c →
       ∃ u, updates r !! i = Some u ∧
         ∀ f, f ∈ discovered_fields c →
           ∃ old new, getattr c f = Ok old ∧ u !! f = Some new ∧
             if String.eqb f "choices" then
               ∃ l l', old = VList l ∧ new = VList l' ∧ length l' = length l ∧
                 ∀ j e, l !! j = Some e →
                   ∃ e', l' !! j = Some e' ∧
                     (translatable_at l j = false → e' = e) ∧
                     (is_tuple e = true → py_eq e' e) ∧
                     (translatable_at l j = true → is_tuple e = false →
                        py_eq e' (VTuple [e; e]))
             else py_eq new old) ∧
  (wf_tree root = true →
   ∃ r, on_lang_change (discovered_components root) tbl lang = Ok r).
Proof.
  intros Hid.
  split; [|intros Hwf; by apply on_lang_change_total, discovered_components_wf].
  intros r Hr i c Hi. pose proof (on_lang_change_sound _ _ _ _ Hr) as Hall.
  destruct (Forall2_lookup_l _ _ _ _ _ Hall Hi) as (u & Hu & Hin & _).
  exists u. split; [exact Hu|]. intros f Hf.
  assert (Hcin : c ∈ discovered_components root) by by eapply list_elem_of_lookup_2.
  assert (Hkey : ∀ v s, v ∈ field_values c f → text_of v = Some s →
            lookup_or_self tbl lang v = VStr s).
  { intros v s Hv Hs. unfold lookup_or_self. rewrite Hs.
    by rewrite (Hid s (discovered_key_intro root c f v s Hcin Hf Hv Hs)). }
  destruct (Hin f Hf) as (new & Hnew & Hval).
  unfold new_value in Hval. unfold field_values in Hkey.
  destruct (String.eqb f "choices") eqn:Hn.
  - apply String.eqb_eq in Hn as ->. destruct Hval as (l & Hg & Hmark & ->).
    rewrite Hg in Hkey.
    exists (VList l), (VList (rebuilt_choices tbl lang l)).
    split; [done|]. split; [done|]. exists l, (rebuilt_choices tbl lang l).
    split; [done|]. split; [done|].
    split; [unfold rebuilt_choices; by rewrite length_imap|].
    intros j e Hj. rewrite (rebuilt_choices_lookup _ _ _ _ _ Hj).
    eexists. split; [done|].
    destruct (translatable_at l j) eqn:Ht; [|done].
    destruct (Hmark j e Ht Hj) as [s He].
    assert (Hd : display_half e = VI18n s) by (by destruct He as [[v ->]| ->]).
    assert (Hs : lookup_or_self tbl lang (VI18n s) = VStr s).
    { apply Hkey; [|done]. apply list_elem_of_omap.
      exists j. split; [by apply bool_decide_eq_true in Ht|].
      by rewrite Hj; cbn; rewrite Hd. }
    rewrite Hd, Hs. split; [done|].
    destruct He as [[v ->]| ->]; unfold py_eq; cbn; done.
  - destruct Hval as (old & Hg & ->). rewrite Hg in Hkey.
    exists old, (lookup_or_self tbl lang old). split; [done|]. split; [done|].
    destruct (text_of old) as [s|] eqn:Hs.
    + rewrite (Hkey old s); [|by left|done]. unfold py_eq.
      by destruct old; cbn in Hs; simplify_eq.
    + unfold lookup_or_self. by rewrite Hs.
Qed.

Lemma on_lang_change_identity_witness :
  let tbl : gmap string (gmap string string) :=
    {[ "en" := {[ "Hello" := "Hello"; "Yes" := "Yes"; "No" := "No";
                  "Answer" := "Answer" ]} ]} in
  let r := Many [ {[ "label" := VStr "Hello" ]};
                  {[ "choices" := VList [VTuple [VStr "Yes"; VInt 1];
                                         VTuple [VStr "n/a"; VInt 2];
                                         VTuple [VStr "No"; VInt 0]];
                     "label" := VStr "Answer" ]} ] in
  identity_table tbl "en" ex_form_root ∧
  on_lang_change (discovered_components ex_form_root) tbl "en" = Ok r ∧
  wf_tree ex_form_root = true ∧
  (∃ u, updates r !! 0 = Some u ∧
        ∃ old new, getattr ex_hello "label" = Ok old ∧ u !! "label" = Some new ∧
                   py_eq new old) ∧
  ∃ r', on_lang_change (discovered_components ex_form_root) tbl "en" = Ok r'.
Proof.
  intros tbl r.
  assert (Hid : identity_table tbl "en" ex_form_root).
  { intros k Hk. vm_compute in Hk.
    repeat (apply elem_of_cons in Hk as [->|Hk]; [by vm_compute|]).
    inversion Hk. }
  assert (Hrun : on_lang_change (discovered_components ex_form_root) tbl "en" = Ok r)
    by (vm_compute; reflexivity).
  split; [exact Hid|]. split; [exact Hrun|]. split; [reflexivity|].
  destruct (on_lang_change_identity ex_form_root tbl "en" Hid) as [Hsound Htotal].
  split; [|exact (Htotal eq_refl)].
  destruct (Hsound r Hrun 0 ex_hello eq_refl) as (u & Hu & Hfields).
  exists u. split; [exact Hu|].
  exact (Hfields "label" ltac:(by vm_compute; left)).
Defined.

(** ** Setup *)




(** ** The scope *)



(** ** Interop shim *)



(** ** Initial load *)

(** With the header present the handler returns the text before the first
    comma, cut at the first hyphen and lower-cased, or [en] when that text
    is empty. *)
Lemma on_load_present (request : Request) (h : string) :
  headers request "Accept-Language" = Some h →
  on_load request
  = Ok (let lang := lower (split_head "-" (split_head "," h)) in
        if String.eqb lang "" then "en" else lang).
Proof.
  intros Hh. unfold on_load, headers_getitem. rewrite Hh. cbn [mbind result_bind].
  by destruct (String.eqb _ "").
Qed.

Lemma on_load_examples :
  on_load {| headers := λ _, Some "en-US,en;q=0.9" |} = Ok "en" ∧
  on_load {| headers := λ _, Some "FR" |} = Ok "fr" ∧
  on_load {| headers := λ _, Some "" |} = Ok "en".
Proof. by repeat split. Qed.

(** C6 at the input where the code departs from it: a request without
    the language preference header makes the handler raise [KeyError]; it
    does not return [en]. *)
Theorem on_load_absent_header :
  headers ex_bare_request "Accept-Language" = None ∧
  on_load ex_bare_request = Raise KeyError ∧
  on_load ex_bare_request ≠ Ok "en".
Proof. by repeat split. Qed.

(** * Further properties of the code *)

(** ** Choice-index discovery, on any input *)

Lemma iter_pairs_sorted (i : nat) (l : list pyval) :
  StronglySorted lt (yields (iter_pairs i l)).
Proof.
  revert i. induction l as [|e l IH]; intros i; cbn [iter_pairs]; [constructor|].
  destruct (unpack2 e) as [[k v]|]; [|constructor].
  destruct (is_i18n k); [|apply IH]. cbn [yields]. constructor; [apply IH|].
  apply Forall_forall. intros j Hj. apply iter_pairs_yield in Hj as [Hle _]. lia.
Qed.

Lemma iter_plain_sorted (i : nat) (l : list pyval) :
  StronglySorted lt (yields (iter_plain i l)).
Proof.
  revert i. induction l as [|e l IH]; intros i; cbn [iter_plain]; [constructor|].
  destruct (is_i18n e); [|apply IH]. cbn [yields]. constructor; [apply IH|].
  apply Forall_forall. intros j Hj. apply iter_plain_yield in Hj as [Hle _]. lia.
Qed.

(** X1.  Whatever [choices] is, and whether or not the iteration ends with an
    exception, the indices yielded come in strictly increasing order and
    each of them is a position of the list: subscripting [choices] with a
    yielded index never raises [IndexError]. *)
Theorem iter_i18n_choices_indices (choices : pyval) :
  StronglySorted lt (yields (iter_i18n_choices choices)) ∧
  ∀ i, i ∈ yields (iter_i18n_choices choices) →
    ∃ l e, choices = VList l ∧ l !! i = Some e ∧ getitem choices i = Ok e.
Proof.
  destruct choices as [| | | | |[|c0 l]];
    try (split; [constructor|intros i Hi; inversion Hi]).
  cbn [iter_i18n_choices]. destruct (is_tuple c0).
  - split; [apply iter_pairs_sorted|]. intros i Hi.
    apply iter_pairs_yield in Hi as (_ & e & k & v & Hl & _).
    rewrite Nat.sub_0_r in Hl. exists (c0 :: l), e. cbn [getitem]. by rewrite Hl.
  - split; [apply iter_plain_sorted|]. intros i Hi.
    apply iter_plain_yield in Hi as (_ & e & Hl & _).
    rewrite Nat.sub_0_r in Hl. exists (c0 :: l), e. cbn [getitem]. by rewrite Hl.
Qed.

Lemma iter_i18n_choices_indices_witness :
  let choices := VList [VTuple [VI18n "Yes"; VInt 1]; VInt 7] in
  final (iter_i18n_choices choices) = Some TypeError ∧
  0 ∈ yields (iter_i18n_choices choices) ∧
  ∃ l e, choices = VList l ∧ l !! 0 = Some e ∧ getitem choices 0 = Ok e.
Proof.
  intros choices. split; [reflexivity|].
  assert (Hin : 0 ∈ yields (iter_i18n_choices choices)) by (vm_compute; left).
  split; [exact Hin|].
  exact (proj2 (iter_i18n_choices_indices choices) 0 Hin).
Defined.

(** ** Field discovery, on any component *)

Lemma any_true_iff {A} (t : A → bool) (g : gen A) :
  any t g = Ok true ↔ ∃ x, x ∈ yields g ∧ t x = true.
Proof.
  induction g as [|e|x g IH]; cbn [any yields].
  - split; [done|]. intros (x & Hx & _). inversion Hx.
  - split; [done|]. intros (x & Hx & _). inversion Hx.
  - destruct (t x) eqn:Hx.
    + split; [|done]. intros _. exists x. split; [by left|done].
    + rewrite IH. split.
      * intros (y & Hy & Ht). exists y. split; [by right|done].
      * intros (y & [->|Hy]%elem_of_cons & Ht); [congruence|by exists y].
Qed.

Lemma fields_loop_value_skipped (ms : list (string * pyval)) :
  "value" ∉ yields (fields_loop true ms).
Proof.
  induction ms as [|[name value] ms IH]; cbn [fields_loop]; [apply not_elem_of_nil|].
  destruct (String.eqb name "value") eqn:Hn; [exact IH|]. cbn [andb].
  apply String.eqb_neq in Hn.
  assert (Hcons : "value" ∉ name :: yields (fields_loop true ms)).
  { intros [?|?]%elem_of_cons; [congruence|done]. }
  destruct (is_i18n value); [exact Hcons|].
  destruct (String.eqb name "choices"); [|exact IH].
  destruct (any truthy_nat (iter_i18n_choices value)) as [[|]|];
    [exact Hcons|exact IH|apply not_elem_of_nil].
Qed.

(** X2.  A component that has a [choices] attribute never has [value] among
    its discovered fields, marked string or not. *)
Theorem value_not_discovered_with_choices (c : Block) :
  hasattr c "choices" = true → "value" ∉ discovered_fields c.
Proof.
  intros Hc. unfold discovered_fields, iter_i18n_fields. rewrite Hc.
  apply fields_loop_value_skipped.
Qed.

Lemma value_not_discovered_with_choices_witness :
  hasattr ex_dropdown "choices" = true ∧
  getattr ex_dropdown "value" = Ok (VI18n "Yes") ∧
  "value" ∉ discovered_fields ex_dropdown.
Proof.
  split; [reflexivity|]. split; [reflexivity|].
  exact (value_not_discovered_with_choices ex_dropdown eq_refl).
Defined.

Lemma fields_loop_sound (hc : bool) (ms : list (string * pyval)) (f : string) :
  f ∈ yields (fields_loop hc ms) →
  ∃ v, (f, v) ∈ ms ∧
    (is_i18n v = true ∨
     (f = "choices" ∧ ∃ i, i ∈ yields (iter_i18n_choices v) ∧ i ≠ 0)).
Proof.
  induction ms as [|[name value] ms IH]; cbn [fields_loop].
  - intros Hf. inversion Hf.
  - assert (Hrest : f ∈ yields (fields_loop hc ms) →
      ∃ v, (f, v) ∈ (name, value) :: ms ∧
        (is_i18n v = true ∨
         (f = "choices" ∧ ∃ i, i ∈ yields (iter_i18n_choices v) ∧ i ≠ 0))).
    { intros Hf. destruct (IH Hf) as (v & Hv & Hk). exists v. split; [by right|done]. }
    destruct (String.eqb name "value" && hc); [exact Hrest|].
    destruct (is_i18n value) eqn:Hi.
    + cbn [yields]. intros [->|Hf]%elem_of_cons; [|by apply Hrest].
      exists value. split; [by left|by left].
    + destruct (String.eqb name "choices") eqn:Hn; [|exact Hrest].
      destruct (any truthy_nat (iter_i18n_choices value)) as [[|]|] eqn:Hany;
        [|exact Hrest|intros Hf; inversion Hf].
      cbn [yields]. intros [->|Hf]%elem_of_cons; [|by apply Hrest].
      apply String.eqb_eq in Hn as ->. apply any_true_iff in Hany as (i & Hi' & Ht).
      exists value. split; [by left|]. right. split; [done|]. exists i. split; [done|].
      unfold truthy_nat in Ht. intros ->. done.
Qed.

(** X3.  Every discovered field is the name of an attribute whose value is a
    marked string, or it is [choices] with a value in which choice-index
    discovery yields an index other than 0. *)
Theorem discovered_field_sound (c : Block) (f : string) :
  f ∈ discovered_fields c →
  ∃ v, (f, v) ∈ members c ∧
    (is_i18n v = true ∨
     (f = "choices" ∧ ∃ i, i ∈ yields (iter_i18n_choices v) ∧ i ≠ 0)).
Proof. apply fields_loop_sound. Qed.

Lemma discovered_field_sound_witness :
  "choices" ∈ discovered_fields ex_dropdown ∧
  ∃ v, ("choices", v) ∈ members ex_dropdown ∧
    (is_i18n v = true ∨
     ("choices" = "choices" ∧ ∃ i, i ∈ yields (iter_i18n_choices v) ∧ i ≠ 0)).
Proof.
  assert (Hin : "choices" ∈ discovered_fields ex_dropdown) by (vm_compute; left).
  split; [exact Hin|]. exact (discovered_field_sound ex_dropdown "choices" Hin).
Defined.

Lemma fields_loop_choices (hc : bool) (ms : list (string * pyval)) (v : pyval) :
  NoDup ms.*1 → ("choices", v) ∈ ms → is_i18n v = false →
  "choices" ∈ yields (fields_loop hc ms) ↔
  ∃ i, i ∈ yields (iter_i18n_choices v) ∧ i ≠ 0.
Proof.
  induction ms as [|[name value] ms IH]; cbn [fmap list_fmap fst].
  - intros _ Hin. inversion Hin.
  - intros [Hname Hnd]%NoDup_cons Hin Hv.
    apply elem_of_cons in Hin as [[= <- <-]|Hin].
    + cbn [fields_loop]. cbn [String.eqb Ascii.eqb Bool.eqb andb]. rewrite Hv.
      assert (Hlater : "choices" ∉ yields (fields_loop hc ms)).
      { intros Hf. apply fields_loop_sound in Hf as (v' & Hv' & _).
        apply Hname. apply list_elem_of_fmap. by exists ("choices", v'). }
      destruct (any truthy_nat (iter_i18n_choices v)) as [[|]|] eqn:Hany.
      * apply any_true_iff in Hany as (i & Hi & Ht). split; [|intros _; by left].
        intros _. exists i. split; [done|]. unfold truthy_nat in Ht. by intros ->.
      * split; [done|]. intros (i & Hi & Hne).
        assert (Htrue : any truthy_nat (iter_i18n_choices v) = Ok true).
        { apply any_true_iff. exists i. split; [done|]. unfold truthy_nat.
          by destruct i. }
        congruence.
      * split; [intros Hf; inversion Hf|]. intros (i & Hi & Hne).
        assert (Htrue : any truthy_nat (iter_i18n_choices v) = Ok true).
        { apply any_true_iff. exists i. split; [done|]. unfold truthy_nat.
          by destruct i. }
        congruence.
    + assert (Hne : name ≠ "choices").
      { intros ->. apply Hname. apply list_elem_of_fmap. by exists ("choices", v). }
      rewrite <- (IH Hnd Hin Hv). cbn [fields_loop].
      apply String.eqb_neq in Hne as Hneb. rewrite Hneb.
      destruct (String.eqb name "value" && hc); [done|].
      destruct (is_i18n value); [|done]. cbn [yields]. split.
      * intros [?|?]%elem_of_cons; [congruence|done].
      * intros ?. by right.
Qed.

(** X4.  For a component with distinct attribute names whose [choices] is not
    itself a marked string, [choices] is a discovered field exactly when
    choice-index discovery yields an index other than 0: field discovery
    asks [any] about the indices, and index 0 counts as false.  A marker in
    the first choice alone does not make [choices] a discovered field. *)
Theorem choices_discovered_iff (c : Block) (v : pyval) :
  NoDup (members c).*1 → ("choices", v) ∈ members c → is_i18n v = false →
  "choices" ∈ discovered_fields c ↔
  ∃ i, i ∈ yields (iter_i18n_choices v) ∧ i ≠ 0.
Proof. apply fields_loop_choices. Qed.

Lemma choices_discovered_iff_witness :
  let v := VList [VTuple [VI18n "Yes"; VInt 1]; VTuple [VStr "No"; VInt 0]] in
  NoDup (members ex_first_only).*1 ∧ ("choices", v) ∈ members ex_first_only ∧
  is_i18n v = false ∧ yields (iter_i18n_choices v) = [0] ∧
  "choices" ∉ discovered_fields ex_first_only.
Proof.
  intros v.
  assert (Hnd : NoDup (members ex_first_only).*1).
  { apply (bool_decide_unpack _). by vm_compute. }
  assert (Hin : ("choices", v) ∈ members ex_first_only) by left.
  split; [exact Hnd|]. split; [exact Hin|]. split; [reflexivity|].
  split; [reflexivity|].
  intros Hd. apply (choices_discovered_iff ex_first_only v Hnd Hin eq_refl) in Hd.
  destruct Hd as (i & Hi & Hne). vm_compute in Hi.
  apply list_elem_of_singleton in Hi. done.
Defined.

(** ** Tree traversal *)

Lemma gen_flat_map_final {A B} (f : A → gen B) (l : list A) :
  final (gen_flat_map f l) = None ↔ Forall (λ x, final (f x) = None) l.
Proof.
  induction l as [|a l IH]; cbn [gen_flat_map]; [by split; [constructor|]|].
  rewrite final_gen_app, Forall_cons, <- IH.
  destruct (final (f a)); [by split; [|intros [? _]]|by split; [|intros [_ ?]]].
Qed.

Lemma gen_flat_map_yields {A B} (f : A → gen B) (l : list A) (y : B) :
  final (gen_flat_map f l) = None →
  y ∈ yields (gen_flat_map f l) ↔ ∃ a, a ∈ l ∧ y ∈ yields (f a).
Proof.
  induction l as [|a l IH]; cbn [gen_flat_map].
  - intros _. split; [intros Hy; inversion Hy|]. intros (a & Ha & _). inversion Ha.
  - rewrite final_gen_app. destruct (final (f a)) eqn:Hfa; [done|]. intros Hrest.
    rewrite yields_gen_app by done. rewrite elem_of_app, (IH Hrest). split.
    + intros [Hy|(a' & Ha' & Hy)]; [exists a; split; [by left|done]|].
      exists a'. split; [by right|done].
    + intros (a' & [->|Ha']%elem_of_cons & Hy); [by left|]. right. by exists a'.
Qed.

(** X5.  When discovery ends normally, the discovered components are exactly
    the nodes the traversal reaches (the root, and the children of every
    [BlockContext] reached) that have a discovered field with a non-empty
    name. *)
Theorem discovered_component_iff (root : Block) :
  final (iter_i18n_components root) = None →
  ∀ c, c ∈ discovered_components root ↔
       c ∈ subblocks root ∧ ∃ f, f ∈ discovered_fields c ∧ f ≠ "".
Proof.
  unfold discovered_components.
  induction root as [id k ms cs IH] using Block_tree_ind.
  set (b := mkBlock id k ms cs) in *.
  rewrite subblocks_unfold, iter_i18n_components_unfold. cbn [children b].
  rewrite final_gen_app.
  destruct (final (if is_BlockContext b
                   then gen_flat_map iter_i18n_components cs else Stop)) eqn:Hkids;
    [done|].
  intros Hself c. rewrite yields_gen_app by done.
  assert (Hk : c ∈ yields (if is_BlockContext b
                           then gen_flat_map iter_i18n_components cs else Stop) ↔
               c ∈ (if is_BlockContext b then cs ≫= subblocks else []) ∧
               ∃ f, f ∈ discovered_fields c ∧ f ≠ "").
  { destruct (is_BlockContext b).
    - rewrite (gen_flat_map_yields _ _ _ Hkids).
      apply gen_flat_map_final in Hkids.
      rewrite list_elem_of_bind. split.
      + intros (a & Ha & Hc).
        pose proof (proj1 (Forall_forall _ _) Hkids a Ha) as Hfa. cbn in Hfa.
        pose proof (proj1 (Forall_forall _ _) IH a Ha Hfa c) as Hiff.
        apply Hiff in Hc as [Hsub Hf]. split; [by exists a|done].
      + intros [(a & Hsub & Ha) Hf].
        pose proof (proj1 (Forall_forall _ _) Hkids a Ha) as Hfa. cbn in Hfa.
        exists a. split; [done|]. by apply (proj1 (Forall_forall _ _) IH a Ha Hfa c).
    - split; [intros Hc; inversion Hc|]. intros [Hc _]. inversion Hc. }
  assert (Hs : any truthy_str (iter_i18n_fields b) = Ok true ↔
               ∃ f, f ∈ discovered_fields b ∧ f ≠ "").
  { rewrite any_true_iff. unfold discovered_fields, truthy_str. split.
    - intros (f & Hf & Ht). exists f. split; [done|].
      intros ->. done.
    - intros (f & Hf & Hne). exists f. split; [done|].
      apply negb_true_iff. by apply String.eqb_neq. }
  rewrite elem_of_app, Hk, elem_of_cons.
  destruct (any truthy_str (iter_i18n_fields b)) as [[|]|] eqn:Hany;
    [| |done]; cbn [yields].
  - rewrite list_elem_of_singleton. split.
    + intros [[Hc Hf]| ->]; [split; [by right|done]|].
      split; [by left|]. by apply Hs.
    + intros [[->|Hc] Hf]; [by right|]. by left.
  - split.
    + intros [[Hc Hf]|Hc]; [split; [by right|done]|inversion Hc].
    + intros [[->|Hc] Hf]; [|by left].
      apply Hs in Hf. done.
Qed.

Lemma discovered_component_iff_witness :
  final (iter_i18n_components ex_form_root) = None ∧
  (ex_dropdown ∈ discovered_components ex_form_root ↔
   ex_dropdown ∈ subblocks ex_form_root ∧
   ∃ f, f ∈ discovered_fields ex_dropdown ∧ f ≠ "").
Proof.
  split; [reflexivity|]. exact (discovered_component_iff ex_form_root eq_refl ex_dropdown).
Defined.

(** ** Setup, its errors *)

(** X6.  Leaving the scope inside a container that is not the [gr.Blocks]
    itself (a row, a column) raises: the error of a bad translation source
    when there is one, else the [ValueError] of [translate_blocks]; no file
    is written. *)
Theorem Translate_exit_not_Blocks
    (json_load yaml_safe_load : string → result (gmap string (gmap string string)))
    (json_dump yaml_dump : gmap string (gmap string string) → string)
    (fs : gmap string string) (root_block : option Block) (next_id : nat)
    (block lang : Block) (translation : source) (placeholder_langs : list string) :
  is_Blocks block = false →
  Translate_exit json_load yaml_safe_load json_dump yaml_dump fs root_block
    next_id block translation lang placeholder_langs
  = match load_translation json_load yaml_safe_load fs translation with
    | Ok _ => Raise (ValueError "block must be an instance of gradio.Blocks")
    | Raise e => Raise e
    end.
Proof.
  intros Hb. unfold Translate_exit.
  destruct (load_translation json_load yaml_safe_load fs translation); [|done].
  cbn [mbind result_bind]. unfold Translate_wire, translate_blocks. by rewrite Hb.
Qed.

Lemma Translate_exit_not_Blocks_witness :
  let row := mkBlock 7 KBlockContext [] [ex_hello] in
  is_Blocks row = false ∧
  Translate_exit (λ _, Ok ∅) (λ _, Ok ∅) (λ _, "") (λ _, "") ∅ (Some ex_hello_root) 8
    row (SrcStr "i18n.json") (gr_State 8) ["en"]
  = Raise (ValueError "block must be an instance of gradio.Blocks").
Proof.
  intros row. split; [reflexivity|].
  exact (Translate_exit_not_Blocks (λ _, Ok ∅) (λ _, Ok ∅) (λ _, "") (λ _, "") ∅
           (Some ex_hello_root) 8 row (gr_State 8) (SrcStr "i18n.json") ["en"] eq_refl).
Defined.

(** ** The language-change handler *)

Lemma lookup_or_self_unknown tbl (lang : string) (v : pyval) :
  tbl !! lang = None → lookup_or_self tbl lang v = v.
Proof. intros H. unfold lookup_or_self. rewrite H. by destruct (text_of v). Qed.

(** X7.  Under a language for which the table has no mapping, whenever the
    handler returns, every discovered field other than [choices] gets its
    original value itself, and in [choices] every entry is the original
    entry, a plain marker at a translatable position apart, which becomes
    the pair of itself with itself. *)
Theorem on_lang_change_unknown_language (root : Block)
    (tbl : gmap string (gmap string string)) (lang : string) (r : handler_ret) :
  tbl !! lang = None →
  on_lang_change (discovered_components root) tbl lang = Ok r →
  ∀ i c, discovered_components root !! i = Some c →
    ∃ u, updates r !! i = Some u ∧
      ∀ f, f ∈ discovered_fields c →
        ∃ old new, getattr c f = Ok old ∧ u !! f = Some new ∧
          if String.eqb f "choices" then
            ∃ l l', old = VList l ∧ new = VList l' ∧ length l' = length l ∧
              ∀ j e, l !! j = Some e →
                l' !! j = Some (if translatable_at l j && negb (is_tuple e)
                                then VTuple [e; e] else e)
          else new = old.
Proof.
  intros Hlang Hr i c Hi. pose proof (on_lang_change_sound _ _ _ _ Hr) as Hall.
  destruct (Forall2_lookup_l _ _ _ _ _ Hall Hi) as (u & Hu & Hin & _).
  exists u. split; [exact Hu|]. intros f Hf.
  destruct (Hin f Hf) as (new & Hnew & Hval). unfold new_value in Hval.
  destruct (String.eqb f "choices") eqn:Hn.
  - apply String.eqb_eq in Hn as ->. destruct Hval as (l & Hg & Hmark & ->).
    exists (VList l), (VList (rebuilt_choices tbl lang l)).
    split; [done|]. split; [done|]. exists l, (rebuilt_choices tbl lang l).
    split; [done|]. split; [done|].
    split; [unfold rebuilt_choices; by rewrite length_imap|].
    intros j e Hj. rewrite (rebuilt_choices_lookup _ _ _ _ _ Hj).
    destruct (translatable_at l j) eqn:Ht; [|done].
    rewrite lookup_or_self_unknown by done.
    destruct (Hmark j e Ht Hj) as [s [[v ->]| ->]]; done.
  - destruct Hval as (old & Hg & ->). exists old, old.
    by rewrite lookup_or_self_unknown in Hnew.
Qed.

Lemma on_lang_change_unknown_language_witness :
  let tbl : gmap string (gmap string string) := {[ "fr" := {[ "Yes" := "Oui" ]} ]} in
  let r := Many [ {[ "label" := VI18n "Hello" ]};
                  {[ "choices" := VList [VTuple [VI18n "Yes"; VInt 1];
                                         VTuple [VStr "n/a"; VInt 2];
                                         VTuple [VI18n "No"; VInt 0]];
                     "label" := VI18n "Answer" ]} ] in
  tbl !! "de" = None ∧
  on_lang_change (discovered_components ex_form_root) tbl "de" = Ok r ∧
  ∃ u, updates r !! 0 = Some u ∧
    ∃ old new, getattr ex_hello "label" = Ok old ∧ u !! "label" = Some new ∧
               new = old.
Proof.
  intros tbl r.
  assert (Hlang : tbl !! "de" = None) by (by vm_compute).
  assert (Hrun : on_lang_change (discovered_components ex_form_root) tbl "de" = Ok r)
    by (vm_compute; reflexivity).
  split; [exact Hlang|]. split; [exact Hrun|].
  destruct (on_lang_change_unknown_language ex_form_root tbl "de" r Hlang Hrun
              0 ex_hello eq_refl) as (u & Hu & Hfields).
  exists u. split; [exact Hu|].
  exact (Hfields "label" ltac:(by vm_compute; left)).
Defined.

(** *** What the handler can raise *)

Lemma unpack2_error (v : pyval) (e : exn) : unpack2 v = Raise e → python_error e.
Proof.
  destruct v as [| |s|s|[|k [|x [|]]]|[|k [|x [|]]]]; cbn; try (by intros [= <-]).
  - destruct s as [|a [|b [|]]]; by intros [= <-].
  - destruct s as [|a [|b [|]]]; by intros [= <-].
Qed.

Lemma iter_i18n_choices_error (v : pyval) (e : exn) :
  final (iter_i18n_choices v) = Some e → python_error e.
Proof.
  destruct v as [| | | | |[|c0 l]]; try done. cbn [iter_i18n_choices].
  destruct (is_tuple c0).
  - generalize 0. induction (c0 :: l) as [|x xs IH]; intros i; cbn; [done|].
    destruct (unpack2 x) as [[k y]|err] eqn:Hx.
    + destruct (is_i18n k); apply IH.
    + intros [= <-]. by eapply unpack2_error.
  - by destruct (iter_plain_yields 0 (c0 :: l)) as [-> _].
Qed.

Lemma any_error {A} (t : A → bool) (g : gen A) (e : exn) :
  any t g = Raise e → final g = Some e.
Proof.
  induction g as [|e'|x g IH]; cbn; [done|by intros [= ->]|].
  destruct (t x); [done|exact IH].
Qed.

Lemma iter_i18n_fields_error (c : Block) (e : exn) :
  final (iter_i18n_fields c) = Some e → python_error e.
Proof.
  unfold iter_i18n_fields. generalize (hasattr c "choices").
  induction (members c) as [|[name value] ms IH]; intros hc; cbn; [done|].
  destruct (String.eqb name "value" && hc); [apply IH|].
  destruct (is_i18n value); [apply IH|].
  destruct (String.eqb name "choices"); [|apply IH].
  destruct (any truthy_nat (iter_i18n_choices value)) as [[|]|err] eqn:Hany;
    [apply IH..|].
  cbn. intros [= <-]. apply any_error in Hany. by eapply iter_i18n_choices_error.
Qed.

Lemma gen_list_error {A} (g : gen A) (e : exn) :
  gen_list g = Raise e → final g = Some e.
Proof.
  induction g as [|e'|x g IH]; cbn; [done|by intros [= ->]|].
  destruct (gen_list g); [done|]. cbn. intros [= ->]. by apply IH.
Qed.

Lemma for_fold_error {A S} (g : gen A) (body : A → S → result S) (s : S) (e : exn) :
  for_fold g body s = Raise e →
  final g = Some e ∨ ∃ x s', body x s' = Raise e.
Proof.
  revert s. induction g as [|e'|x g IH]; intros s; cbn; [done|intros [= ->]; by left|].
  destruct (body x s) as [s1|err] eqn:Hx.
  - cbn. apply IH.
  - cbn. intros [= ->]. right. by exists x, s.
Qed.

Lemma translate_error tbl lang (v : pyval) (e : exn) :
  translate tbl lang v = Raise e → python_error e.
Proof. unfold translate. destruct (hashable v); [done|]. by intros [= <-]. Qed.

Lemma getitem_error (v : pyval) (i : nat) (e : exn) :
  getitem v i = Raise e → python_error e.
Proof.
  destruct v as [| |s|s|l|l]; cbn; try (by intros [= <-]).
  - destruct (String.get i s); [done|]. by intros [= <-].
  - destruct (String.get i s); [done|]. by intros [= <-].
  - destruct (l !! i); [done|]. by intros [= <-].
  - destruct (l !! i); [done|]. by intros [= <-].
Qed.

Lemma getattr_error (c : Block) (f : string) (e : exn) :
  getattr c f = Raise e → python_error e.
Proof. unfold getattr. destruct (find _ _); [done|]. by intros [= <-]. Qed.

Lemma rebuild_entry_error tbl lang (i : nat) (cur : list pyval) (e : exn) :
  rebuild_entry tbl lang i cur = Raise e → python_error e.
Proof.
  unfold rebuild_entry.
  destruct (getitem (VList cur) i) as [entry|err] eqn:Hg;
    [|intros [= <-]; by eapply getitem_error].
  cbn [mbind result_bind]. destruct (is_tuple entry).
  - destruct (unpack2 entry) as [[k v]|err] eqn:Hu;
      [|intros [= <-]; by eapply unpack2_error].
    cbn [mbind result_bind].
    destruct (translate tbl lang k) as [t|err] eqn:Ht; [done|].
    intros [= <-]. by eapply translate_error.
  - destruct (translate tbl lang entry) as [t|err] eqn:Ht; [done|].
    intros [= <-]. by eapply translate_error.
Qed.

Lemma update_field_error tbl lang (c : Block) (f : string) (u : gmap string pyval)
    (e : exn) :
  update_field tbl lang c f u = Raise e → python_error e.
Proof.
  unfold update_field. destruct (String.eqb f "choices").
  - destruct (rebuild_choices tbl lang c) as [v|err] eqn:Hr; [done|].
    intros [= <-]. unfold rebuild_choices in Hr.
    destruct (getattr c "choices") as [orig|err'] eqn:Hg;
      [|injection Hr as <-; by eapply getattr_error].
    cbn [mbind result_bind] in Hr.
    destruct orig as [| | | | |l]; try (by injection Hr as <-).
    cbn [list_copy mbind result_bind] in Hr.
    destruct (for_fold (iter_i18n_choices (VList l)) (rebuild_entry tbl lang) l)
      as [l'|err'] eqn:Hf; [done|].
    injection Hr as <-. apply for_fold_error in Hf as [Hf|(x & s' & Hf)].
    + by eapply iter_i18n_choices_error.
    + by eapply rebuild_entry_error.
  - destruct (getattr c f) as [v|err] eqn:Hg;
      [|intros [= <-]; by eapply getattr_error].
    cbn [mbind result_bind].
    destruct (translate tbl lang v) as [t|err] eqn:Ht; [done|].
    intros [= <-]. by eapply translate_error.
Qed.


(** X9.  Whenever the handler returns, it returns one update per component; a
    bare update exactly when there is one component, and a list of updates
    otherwise, the empty list when there is no component. *)
Theorem on_lang_change_shape (components : list Block)
    (tbl : gmap string (gmap string string)) (lang : string) (r : handler_ret) :
  on_lang_change components tbl lang = Ok r →
  length (updates r) = length components ∧
  (length components = 1 → ∃ u, r = One u) ∧
  (length components ≠ 1 → r = Many (updates r)).
Proof.
  intros Hr. pose proof (on_lang_change_sound _ _ _ _ Hr) as Hall.
  apply Forall2_length in Hall.
  split; [done|]. unfold on_lang_change in Hr.
  destruct (for_fold (gen_of_list components) _ []) as [outputs|]; [|done].
  cbn [mbind result_bind] in Hr.
  destruct outputs as [|u [|u' outputs]]; injection Hr as <-; cbn in Hall |- *.
  - split; [lia|done].
  - split; [by eexists|lia].
  - split; [lia|done].
Qed.

Lemma on_lang_change_shape_witness :
  let r := One {[ "label" := VI18n "Hello" ]} in
  on_lang_change (discovered_components ex_hello_root) ∅ "en" = Ok r ∧
  length (discovered_components ex_hello_root) = 1 ∧
  ∃ u, r = One u.
Proof.
  intros r.
  assert (Hrun : on_lang_change (discovered_components ex_hello_root) ∅ "en" = Ok r)
    by (vm_compute; reflexivity).
  split; [exact Hrun|]. split; [reflexivity|].
  destruct (on_lang_change_shape _ _ _ _ Hrun) as (_ & Hone & _).
  exact (Hone eq_refl).
Defined.

(** X10.  Whenever the handler returns, the update of a component that has a
    [choices] attribute never sets [value]: the selected value is kept as
    it is, even when it is a marked string. *)
Theorem on_lang_change_keeps_value (components : list Block)
    (tbl : gmap string (gmap string string)) (lang : string) (r : handler_ret)
    (i : nat) (c : Block) :
  on_lang_change components tbl lang = Ok r →
  components !! i = Some c → hasattr c "choices" = true →
  ∃ u, updates r !! i = Some u ∧ u !! "value" = None.
Proof.
  intros Hr Hi Hc. pose proof (on_lang_change_sound _ _ _ _ Hr) as Hall.
  destruct (Forall2_lookup_l _ _ _ _ _ Hall Hi) as (u & Hu & _ & Hout).
  exists u. split; [exact Hu|]. apply Hout.
  unfold discovered_fields, iter_i18n_fields. rewrite Hc.
  apply fields_loop_value_skipped.
Qed.

Lemma on_lang_change_keeps_value_witness :
  let tbl : gmap string (gmap string string) := {[ "fr" := {[ "Yes" := "Oui" ]} ]} in
  let r := Many [ {[ "label" := VI18n "Hello" ]};
                  {[ "choices" := VList [VTuple [VStr "Oui"; VInt 1];
                                         VTuple [VStr "n/a"; VInt 2];
                                         VTuple [VI18n "No"; VInt 0]];
                     "label" := VI18n "Answer" ]} ] in
  on_lang_change [ex_hello; ex_dropdown] tbl "fr" = Ok r ∧
  hasattr ex_dropdown "choices" = true ∧
  getattr ex_dropdown "value" = Ok (VI18n "Yes") ∧
  ∃ u, updates r !! 1 = Some u ∧ u !! "value" = None.
Proof.
  intros tbl r.
  assert (Hrun : on_lang_change [ex_hello; ex_dropdown] tbl "fr" = Ok r)
    by (vm_compute; reflexivity).
  split; [exact Hrun|]. split; [reflexivity|]. split; [reflexivity|].
  exact (on_lang_change_keeps_value _ _ _ _ 1 ex_dropdown Hrun eq_refl eq_refl).
Defined.


(** ** Gap detector and table builder together *)

Lemma for_any_ext {A} (g : gen A) (body1 body2 : A → result bool) :
  (∀ x, x ∈ yields g → body1 x = body2 x) → for_any g body1 = for_any g body2.
Proof.
  induction g as [|e|x g IH]; cbn [for_any yields]; intros Hb; [done..|].
  rewrite (Hb x) by by left. destruct (body2 x) as [[|]|]; [done| |done].
  apply IH. intros y Hy. apply Hb. by right.
Qed.

(** X11.  The gap detector looks only at which keys the table has for the
    target languages, never at the translations: two tables with the same
    keys for every target language get the same answer, so a key that is
    mapped to itself counts as translated. *)
Theorem has_new_i18n_fields_keys_only (block : Block) (langs : list string)
    (tbl tbl' : gmap string (gmap string string)) :
  (∀ lang s, lang ∈ langs →
     is_Some (tbl !! lang ≫= (λ d, d !! s)) ↔ is_Some (tbl' !! lang ≫= (λ d, d !! s))) →
  has_new_i18n_fields block langs tbl = has_new_i18n_fields block langs tbl'.
Proof.
  intros Hkeys. unfold has_new_i18n_fields.
  destruct (gen_list (iter_i18n_components block)) as [components|]; [|done].
  cbn [mbind result_bind]. apply for_any_ext. intros lang Hlang.
  rewrite yields_gen_of_list in Hlang.
  assert (Hd : ∀ v, dict_contains (lang_table tbl lang) v
                    = dict_contains (lang_table tbl' lang) v).
  { intros v. unfold dict_contains. destruct (hashable v); [|done].
    destruct (text_of v) as [s|]; [|done]. f_equal. apply bool_decide_ext.
    rewrite !lang_table_lookup. by apply Hkeys. }
  apply for_any_ext. intros c _. apply for_any_ext. intros f _.
  unfold field_is_new. destruct (String.eqb f "choices").
  - destruct (getattr c "choices") as [choices|]; [|done]. cbn [mbind result_bind].
    apply for_any_ext. intros idx _.
    destruct (choice_display choices idx) as [value|]; [|done].
    cbn [mbind result_bind]. by rewrite Hd.
  - destruct (getattr c f) as [value|]; [|done]. cbn [mbind result_bind].
    by rewrite Hd.
Qed.

Lemma has_new_i18n_fields_keys_only_witness :
  let tbl : gmap string (gmap string string) := {[ "en" := {[ "Hello" := "Hola" ]} ]} in
  let tbl' : gmap string (gmap string string) := {[ "en" := {[ "Hello" := "Hello" ]} ]} in
  (∀ lang s, lang ∈ ["en"] →
     is_Some (tbl !! lang ≫= (λ d, d !! s)) ↔ is_Some (tbl' !! lang ≫= (λ d, d !! s))) ∧
  has_new_i18n_fields ex_hello_root ["en"] tbl
  = has_new_i18n_fields ex_hello_root ["en"] tbl'.
Proof.
  intros tbl tbl'.
  assert (Hkeys : ∀ lang s, lang ∈ ["en"] →
     is_Some (tbl !! lang ≫= (λ d, d !! s)) ↔ is_Some (tbl' !! lang ≫= (λ d, d !! s))).
  { intros lang s ->%list_elem_of_singleton. unfold tbl, tbl'.
    rewrite !lookup_singleton_eq. cbn [mbind option_bind].
    destruct (decide (s = "Hello")) as [->|Hne].
    - rewrite !lookup_singleton_eq. split; by eexists.
    - rewrite !lookup_singleton_ne by done. done. }
  split; [exact Hkeys|].
  exact (has_new_i18n_fields_keys_only ex_hello_root ["en"] tbl tbl' Hkeys).
Defined.

(** On a well-formed component the translatable values of a discovered
    field are marked strings. *)
Lemma field_values_marker (c : Block) (f : string) (v : pyval) :
  wf_block c = true → f ∈ discovered_fields c → v ∈ field_values c f →
  ∃ s, v = VI18n s.
Proof.
  intros Hwf Hf. destruct (iter_i18n_fields_wf c Hwf) as [_ Hfields].
  specialize (Hfields f Hf). unfold field_values.
  destruct (String.eqb f "choices").
  - destruct Hfields as (l & -> & Hl). intros (idx & Hidx & Hv)%list_elem_of_omap.
    destruct (wf_choices_yield l idx Hl Hidx) as (e & s & Hi & Hd & _).
    rewrite Hi in Hv. cbn in Hv. injection Hv as <-. by exists s.
  - destruct Hfields as (s & ->). intros ->%list_elem_of_singleton. by exists s.
Qed.

(** Whenever the gap detector returns true, there is a gap. *)
Lemma has_new_i18n_fields_true (block : Block) (langs : list string)
    (tbl : gmap string (gmap string string)) :
  has_new_i18n_fields block langs tbl = Ok true →
  ∃ c f lang v,
    c ∈ discovered_components block ∧ f ∈ discovered_fields c ∧
    lang ∈ langs ∧ v ∈ field_values c f ∧ absent_key tbl lang v.
Proof.
  unfold has_new_i18n_fields.
  destruct (gen_list (iter_i18n_components block)) as [components|] eqn:Hcs; [|done].
  apply gen_list_inv in Hcs as [_ ->]. cbn [mbind result_bind].
  fold (discovered_components block). intros Hb.
  assert (Hiff : true = true ↔ ∃ lang, lang ∈ yields (gen_of_list langs) ∧
       ∃ c, c ∈ discovered_components block ∧
       ∃ f, f ∈ discovered_fields c ∧
       ∃ v, v ∈ field_values c f ∧ absent_key tbl lang v);
    [apply (for_any_sound _ _ _ _ Hb)
    |destruct (proj1 Hiff eq_refl) as (lang & Hlang & c & Hc & f & Hf & v & Hv & Ha)].
  - intros lang b1 _ Hb1.
    rewrite (for_any_sound _ _
      (λ c, ∃ f, f ∈ discovered_fields c ∧
            ∃ v, v ∈ field_values c f ∧ absent_key tbl lang v) _ Hb1).
    + by rewrite yields_gen_of_list.
    + intros c b2 _ Hb2.
      apply (for_any_sound _ _
        (λ f, ∃ v, v ∈ field_values c f ∧ absent_key tbl lang v) _ Hb2).
      intros f b3 _ Hb3. by apply field_gap_sound.
  - rewrite yields_gen_of_list in Hlang. by exists c, f, lang, v.
Qed.

(** After the table builder, no gap is left. *)
Lemma no_gap_after_dump (block : Block) (langs : list string)
    (tbl ret : gmap string (gmap string string)) :
  wf_tree block = true → dump_blocks block langs tbl = Ok ret →
  has_new_i18n_fields block langs ret = Ok false.
Proof.
  intros Hwf Hret. pose proof (dump_blocks_sound _ _ _ _ Hret) as Hl.
  destruct (has_new_i18n_fields_total block langs ret Hwf) as [[|] Hb]; [|done].
  exfalso. apply has_new_i18n_fields_true in Hb
    as (c & f & lang & v & Hc & Hf & Hlang & Hv & Ha).
  pose proof (proj2 (iter_i18n_components_wf block Hwf) c Hc) as Hwfc.
  destruct (field_values_marker c f v Hwfc Hf Hv) as [s ->].
  pose proof (discovered_key_intro block c f (VI18n s) s Hc Hf Hv eq_refl) as Hs.
  unfold absent_key in Ha. cbn in Ha.
  rewrite Hl, bool_decide_eq_true_2 in Ha by done. cbn in Ha.
  by rewrite placeholder_dict_lookup, bool_decide_eq_true_2 in Ha.
Qed.

(** X12.  On a well-formed tree the table builder returns a table in which the
    gap detector, run for the same languages, finds nothing new. *)
Theorem dump_blocks_leaves_no_gap (block : Block) (langs : list string)
    (tbl : gmap string (gmap string string)) :
  wf_tree block = true →
  ∃ ret, dump_blocks block langs tbl = Ok ret ∧
         has_new_i18n_fields block langs ret = Ok false.
Proof.
  intros Hwf. destruct (dump_blocks_lookup block langs tbl Hwf) as (ret & Hret & _).
  exists ret. split; [exact Hret|]. by eapply no_gap_after_dump.
Qed.

Lemma dump_blocks_leaves_no_gap_witness :
  wf_tree ex_form_root = true ∧
  has_new_i18n_fields ex_form_root ["fr"; "de"] {[ "fr" := {[ "Yes" := "Oui" ]} ]}
  = Ok true ∧
  ∃ ret, dump_blocks ex_form_root ["fr"; "de"] {[ "fr" := {[ "Yes" := "Oui" ]} ]}
         = Ok ret ∧
         has_new_i18n_fields ex_form_root ["fr"; "de"] ret = Ok false.
Proof.
  split; [reflexivity|]. split; [vm_compute; reflexivity|].
  exact (dump_blocks_leaves_no_gap ex_form_root ["fr"; "de"]
           {[ "fr" := {[ "Yes" := "Oui" ]} ]} eq_refl).
Defined.

(** X13.  On a well-formed tree, building a table from the table that was just
    built changes nothing: every translation and every placeholder is
    carried forward, and nothing is added. *)
Theorem dump_blocks_idempotent (block : Block) (langs : list string)
    (tbl : gmap string (gmap string string)) :
  wf_tree block = true →
  ∃ ret, dump_blocks block langs tbl = Ok ret ∧
         dump_blocks block langs ret = Ok ret.
Proof.
  intros Hwf. destruct (dump_blocks_lookup block langs tbl Hwf) as (ret & Hret & Hl).
  exists ret. split; [exact Hret|].
  destruct (dump_blocks_lookup block langs ret Hwf) as (ret' & Hret' & Hl').
  rewrite Hret'. f_equal. apply map_eq. intros l. rewrite Hl', Hl.
  destruct (bool_decide (l ∈ langs)) eqn:Hin; [|done]. f_equal.
  apply map_eq. intros k. rewrite !placeholder_dict_lookup.
  destruct (bool_decide (k ∈ discovered_keys block)) eqn:Hk; [|done].
  rewrite Hl, Hin. cbn. by rewrite placeholder_dict_lookup, Hk.
Qed.

Lemma dump_blocks_idempotent_witness :
  wf_tree ex_form_root = true ∧
  ∃ ret, dump_blocks ex_form_root ["fr"; "de"] {[ "fr" := {[ "Yes" := "Oui" ]} ]}
         = Ok ret ∧
         dump_blocks ex_form_root ["fr"; "de"] ret = Ok ret.
Proof.
  split; [reflexivity|].
  exact (dump_blocks_idempotent ex_form_root ["fr"; "de"]
           {[ "fr" := {[ "Yes" := "Oui" ]} ]} eq_refl).
Defined.

(** ** The scope and the translation file *)

Lemma write_merged_other
    (json_dump yaml_dump : gmap string (gmap string string) → string)
    (fs : gmap string string) (path q : string)
    (merged : gmap string (gmap string string)) :
  q ≠ path → write_merged json_dump yaml_dump fs path merged !! q = fs !! q.
Proof.
  intros Hq. unfold write_merged.
  destruct (endswith path ".json"); [|destruct (endswith path ".yaml")];
    by rewrite ?lookup_insert_ne by done.
Qed.

(** X14.  Whenever leaving the scope succeeds, every file other than the
    translation file is as it was, and with a dictionary as the source no
    file changes at all; the files differ from before only if the source is
    a path, placeholder languages were given and the gap detector found a
    gap in the table that was loaded. *)
Theorem Translate_exit_files
    (json_load yaml_safe_load : string → result (gmap string (gmap string string)))
    (json_dump yaml_dump : gmap string (gmap string string) → string)
    (fs : gmap string string) (root_block : option Block) (next_id : nat)
    (block lang : Block) (translation : source) (placeholder_langs : list string)
    (listeners : list listener) (fs' : gmap string string) :
  Translate_exit json_load yaml_safe_load json_dump yaml_dump fs root_block
    next_id block translation lang placeholder_langs = Ok (listeners, fs') →
  (∀ q, translation ≠ SrcStr q → fs' !! q = fs !! q) ∧
  (fs' ≠ fs →
   ∃ path tbl, translation = SrcStr path ∧ placeholder_langs ≠ [] ∧
     load_translation json_load yaml_safe_load fs translation = Ok tbl ∧
     has_new_i18n_fields block placeholder_langs tbl = Ok true).
Proof.
  unfold Translate_exit.
  destruct (load_translation json_load yaml_safe_load fs translation)
    as [tbl|] eqn:Hload; [|done].
  cbn [mbind result_bind]. unfold Translate_wire.
  destruct (translate_blocks root_block next_id (Some block) tbl (Some lang))
    as [ls|]; [|done].
  cbn [mbind result_bind].
  assert (Hsame : Ok (ls, fs) = Ok (listeners, fs') →
    (∀ q, translation ≠ SrcStr q → fs' !! q = fs !! q) ∧
    (fs' ≠ fs →
     ∃ path tbl0, translation = SrcStr path ∧ placeholder_langs ≠ [] ∧
       Ok tbl = Ok tbl0 ∧
       has_new_i18n_fields block placeholder_langs tbl0 = Ok true)).
  { intros [= <- <-]. split; [done|]. by intros []. }
  destruct placeholder_langs as [|l langs]; [exact Hsame|].
  destruct translation as [t|path|v]; [exact Hsame| |exact Hsame].
  destruct (has_new_i18n_fields block (l :: langs) tbl) as [[|]|] eqn:Hnew;
    [|exact Hsame|done].
  destruct (dump_blocks block (l :: langs) tbl) as [merged|]; [|done].
  cbn [mbind result_bind]. intros [= <- <-]. split.
  - intros q Hq. apply write_merged_other. by intros ->.
  - intros _. by exists path, tbl.
Qed.

Lemma Translate_exit_files_witness :
  let fs : gmap string string := {[ "notes.txt" := "keep" ]} in
  let fs' : gmap string string := <[ "i18n.json" := "{}" ]> fs in
  let listeners :=
    [OnLoad on_load [gr_State 2];
     OnChange (gr_State 2) (on_lang_change [ex_hello] ∅) [gr_State 2] [ex_hello]] in
  Translate_exit (λ _, Ok ∅) (λ _, Ok ∅) (λ _, "{}") (λ _, "{}") fs None 2
    ex_hello_root (SrcStr "i18n.json") (gr_State 2) ["en"] = Ok (listeners, fs') ∧
  fs' !! "notes.txt" = fs !! "notes.txt" ∧
  fs' ≠ fs ∧
  ∃ path tbl, SrcStr "i18n.json" = SrcStr path ∧ ["en"] ≠ [] ∧
    load_translation (λ _, Ok ∅) (λ _, Ok ∅) fs (SrcStr "i18n.json") = Ok tbl ∧
    has_new_i18n_fields ex_hello_root ["en"] tbl = Ok true.
Proof.
  intros fs fs' listeners.
  assert (Hrun : Translate_exit (λ _, Ok ∅) (λ _, Ok ∅) (λ _, "{}") (λ _, "{}") fs
                   None 2 ex_hello_root (SrcStr "i18n.json") (gr_State 2) ["en"]
                 = Ok (listeners, fs')) by (vm_compute; reflexivity).
  assert (Hne : fs' ≠ fs).
  { intros Heq. assert (H : fs' !! "i18n.json" = fs !! "i18n.json") by by rewrite Heq.
    vm_compute in H. discriminate H. }
  split; [exact Hrun|].
  destruct (Translate_exit_files _ _ _ _ _ _ _ _ _ _ _ _ _ Hrun) as [Hframe Hwrite].
  split; [apply Hframe; discriminate|]. split; [exact Hne|]. exact (Hwrite Hne).
Defined.

Lemma translate_blocks_any_table (root_block : option Block) (next_id : nat)
    (block : option Block) (t t' : gmap string (gmap string string))
    (lang : option Block) (ls : list listener) :
  translate_blocks root_block next_id block t lang = Ok ls →
  ∃ ls', translate_blocks root_block next_id block t' lang = Ok ls'.
Proof.
  unfold translate_blocks.
  destruct (match block with Some b => Some b | None => root_block end) as [b|]; [|done].
  destruct (is_Blocks b); [|done].
  destruct (gen_list (iter_i18n_components b)); [|done]. by eexists.
Qed.

(** X15.  A second run changes nothing.  On a well-formed tree, when leaving the
    scope succeeded and the file it may have written reads back as the
    table that was written, leaving the scope again with the files of the
    first run succeeds and leaves every file as the first run left it. *)
Theorem Translate_exit_second_run
    (json_load yaml_safe_load : string → result (gmap string (gmap string string)))
    (json_dump yaml_dump : gmap string (gmap string string) → string)
    (fs : gmap string string) (root_block : option Block) (next_id : nat)
    (block lang : Block) (path : string) (placeholder_langs : list string)
    (listeners : list listener) (fs1 : gmap string string) :
  wf_tree block = true →
  (∀ tbl merged,
     load_translation json_load yaml_safe_load fs (SrcStr path) = Ok tbl →
     dump_blocks block placeholder_langs tbl = Ok merged →
     load_translation json_load yaml_safe_load
       (write_merged json_dump yaml_dump fs path merged) (SrcStr path) = Ok merged) →
  Translate_exit json_load yaml_safe_load json_dump yaml_dump fs root_block
    next_id block (SrcStr path) lang placeholder_langs = Ok (listeners, fs1) →
  ∃ listeners',
    Translate_exit json_load yaml_safe_load json_dump yaml_dump fs1 root_block
      next_id block (SrcStr path) lang placeholder_langs = Ok (listeners', fs1).
Proof.
  intros Hwf Hround Hexit. pose proof Hexit as Hrun. revert Hrun.
  unfold Translate_exit at 1.
  destruct (load_translation json_load yaml_safe_load fs (SrcStr path))
    as [tbl|] eqn:Hload; [|done].
  cbn [mbind result_bind]. unfold Translate_wire.
  destruct (translate_blocks root_block next_id (Some block) tbl (Some lang))
    as [ls|] eqn:Hls; [|done].
  cbn [mbind result_bind].
  assert (Hsame : Ok (ls, fs) = Ok (listeners, fs1) →
    ∃ listeners',
      Translate_exit json_load yaml_safe_load json_dump yaml_dump fs1 root_block
        next_id block (SrcStr path) lang placeholder_langs = Ok (listeners', fs1)).
  { intros [= <- <-]. by exists ls. }
  destruct placeholder_langs as [|l langs]; [exact Hsame|].
  destruct (has_new_i18n_fields block (l :: langs) tbl) as [[|]|]; [|exact Hsame|done].
  destruct (dump_blocks block (l :: langs) tbl) as [merged|] eqn:Hdump; [|done].
  cbn [mbind result_bind]. intros [= <- <-].
  destruct (translate_blocks_any_table _ _ _ _ merged _ _ Hls) as [ls' Hls'].
  exists ls'. unfold Translate_exit. rewrite (Hround tbl merged eq_refl Hdump).
  cbn [mbind result_bind]. unfold Translate_wire. rewrite Hls'.
  cbn [mbind result_bind].
  by rewrite (no_gap_after_dump block (l :: langs) tbl merged Hwf Hdump).
Qed.

Lemma Translate_exit_second_run_witness :
  let merged : gmap string (gmap string string) := {[ "en" := {[ "Hello" := "Hello" ]} ]} in
  let json_load : string → result (gmap string (gmap string string)) :=
    λ _, Ok merged in
  let json_dump : gmap string (gmap string string) → string := λ _, "{}" in
  let fs1 : gmap string string := {[ "i18n.json" := "{}" ]} in
  let listeners :=
    [OnLoad on_load [gr_State 2];
     OnChange (gr_State 2) (on_lang_change [ex_hello] ∅) [gr_State 2] [ex_hello]] in
  wf_tree ex_hello_root = true ∧
  Translate_exit json_load json_load json_dump json_dump ∅ None 2
    ex_hello_root (SrcStr "i18n.json") (gr_State 2) ["en"] = Ok (listeners, fs1) ∧
  ∃ listeners',
    Translate_exit json_load json_load json_dump json_dump fs1 None 2
      ex_hello_root (SrcStr "i18n.json") (gr_State 2) ["en"] = Ok (listeners', fs1).
Proof.
  intros merged json_load json_dump fs1 listeners.
  assert (Hrun : Translate_exit json_load json_load json_dump json_dump ∅ None 2
                   ex_hello_root (SrcStr "i18n.json") (gr_State 2) ["en"]
                 = Ok (listeners, fs1)) by (vm_compute; reflexivity).
  split; [reflexivity|]. split; [exact Hrun|].
  apply (Translate_exit_second_run json_load json_load json_dump json_dump ∅ None 2
           ex_hello_root (gr_State 2) "i18n.json" ["en"] listeners fs1 eq_refl);
    [|exact Hrun].
  intros tbl m Hload Hdump. cbn in Hload. injection Hload as <-.
  vm_compute in Hdump. injection Hdump as <-. vm_compute. reflexivity.
Defined.



(** ** The handler on page load, with the header present *)

Lemma split_head_chars (sep a : ascii) (s : string) :
  a ∈ String.list_ascii_of_string (split_head sep s) →
  a ≠ sep ∧ a ∈ String.list_ascii_of_string s.
Proof.
  induction s as [|b s IH]; cbn [split_head String.list_ascii_of_string]; [by intros ?%elem_of_nil|].
  destruct (Ascii.eqb b sep) eqn:Hb; cbn [String.list_ascii_of_string]; [by intros ?%elem_of_nil|].
  apply Ascii.eqb_neq in Hb.
  intros [->|Ha]%elem_of_cons; [split; [done|by left]|].
  destruct (IH Ha). split; [done|by right].
Qed.

Lemma lower_chars (a : ascii) (s : string) :
  a ∈ String.list_ascii_of_string (lower s) →
  ∃ b, b ∈ String.list_ascii_of_string s ∧ a = lower_char b.
Proof.
  induction s as [|c s IH]; cbn [lower String.list_ascii_of_string]; [by intros ?%elem_of_nil|].
  intros [->|Ha]%elem_of_cons; [exists c; split; [by left|done]|].
  destruct (IH Ha) as (b & Hb & ->). exists b. split; [by right|done].
Qed.

Lemma lower_char_separator (b : ascii) :
  (lower_char b = ","%char → b = ","%char) ∧ (lower_char b = "-"%char → b = "-"%char).
Proof.
  destruct b as [[] [] [] [] [] [] [] []]; vm_compute; split; intros H;
    first [reflexivity | discriminate H].
Qed.

Lemma lower_char_idempotent (b : ascii) : lower_char (lower_char b) = lower_char b.
Proof. destruct b as [[] [] [] [] [] [] [] []]; vm_compute; reflexivity. Qed.

Lemma lower_idempotent (s : string) : lower (lower s) = lower s.
Proof.
  induction s as [|a s IH]; cbn [lower]; [done|].
  by rewrite lower_char_idempotent, IH.
Qed.

(** X17.  With the language preference header present, whatever its text, the
    handler returns a language code that is not empty, holds neither a comma
    nor a hyphen, and is already in lower case. *)
Theorem on_load_language_code (request : Request) (h : string) :
  headers request "Accept-Language" = Some h →
  ∃ lang, on_load request = Ok lang ∧ lang ≠ "" ∧
    (∀ a, a ∈ String.list_ascii_of_string lang → a ≠ ","%char ∧ a ≠ "-"%char) ∧
    lower lang = lang.
Proof.
  intros Hh. unfold on_load, headers_getitem. rewrite Hh. cbn [mbind result_bind].
  destruct (String.eqb _ "") eqn:Hempty.
  - exists "en". split; [done|]. split; [done|]. split; [|done].
    intros a Ha. cbn in Ha. apply elem_of_cons in Ha as [->|Ha]; [done|].
    apply elem_of_cons in Ha as [->|Ha]; [done|]. by apply elem_of_nil in Ha.
  - apply String.eqb_neq in Hempty. eexists. split; [done|]. split; [done|].
    split; [|apply lower_idempotent].
    intros a (b & Hb & ->)%lower_chars.
    apply split_head_chars in Hb as [Hhyphen Hb].
    apply split_head_chars in Hb as [Hcomma _].
    destruct (lower_char_separator b) as [Hc Hy].
    split; intros Heq; [by apply Hcomma, Hc|by apply Hhyphen, Hy].
Qed.

Lemma on_load_language_code_witness :
  let request := {| headers := λ _, Some "Pt-BR,pt;q=0.9,en;q=0.8" |} in
  headers request "Accept-Language" = Some "Pt-BR,pt;q=0.9,en;q=0.8" ∧
  on_load request = Ok "pt" ∧
  ∃ lang, on_load request = Ok lang ∧ lang ≠ "" ∧
    (∀ a, a ∈ String.list_ascii_of_string lang → a ≠ ","%char ∧ a ≠ "-"%char) ∧
    lower lang = lang.
Proof.
  intros request. split; [reflexivity|]. split; [reflexivity|].
  exact (on_load_language_code request "Pt-BR,pt;q=0.9,en;q=0.8" eq_refl).
Defined.

(** ** The interop shim, applied twice *)

(** X18.  Wrapping a function that is already wrapped changes nothing more: on
    every call the twice-wrapped function returns what the wrapped one
    returns, and raises what it raises. *)
Theorem escape_caller_idempotent
    (func : list pyval → list (string * pyval) → result pyval)
    (str_of : pyval → string) (args : list pyval) (kwargs : list (string * pyval)) :
  escape_caller (escape_caller func str_of) str_of args kwargs
  = escape_caller func str_of args kwargs.
Proof.
  unfold escape_caller. destruct args as [|a0 args]; [done|].
  destruct (is_i18n a0); [|done].
  destruct (func (a0 :: args) kwargs) as [v|]; [|done].
  cbn [fmap result_fmap]. unfold I18nString. done.
Qed.

(** ** The language-change handler and the other languages *)

Lemma for_fold_ext {A S} (g : gen A) (body1 body2 : A → S → result S) (s : S) :
  (∀ x s, body1 x s = body2 x s) → for_fold g body1 s = for_fold g body2 s.
Proof.
  intros Hb. revert s. induction g as [|e|x g IH]; intros s; cbn [for_fold]; [done..|].
  rewrite Hb. destruct (body2 x s); [|done]. cbn [mbind result_bind]. apply IH.
Qed.

Lemma translate_same_lang_table tbl tbl' (lang : string) (key : pyval) :
  lang_table tbl lang = lang_table tbl' lang →
  translate tbl lang key = translate tbl' lang key.
Proof. intros H. unfold translate. by rewrite H. Qed.

(** X19.  The handler consults only the mapping of the language it is called
    with, an absent language counting as an empty mapping: two tables that
    agree on it give the same result, whatever they hold for the others. *)
Theorem on_lang_change_selected_language (components : list Block)
    (tbl tbl' : gmap string (gmap string string)) (lang : string) :
  lang_table tbl lang = lang_table tbl' lang →
  on_lang_change components tbl lang = on_lang_change components tbl' lang.
Proof.
  intros H. unfold on_lang_change.
  rewrite (for_fold_ext _ _
    (λ component outputs,
       fields ← gen_list (iter_i18n_fields component);
       if component_eq_str component lang && bool_decide ("value" ∈ fields) then
         Raise (ValueError "'lang' component can't has I18nStrings as value")
       else
         modified ← update_of tbl' lang component fields;
         Ok (outputs ++ [modified])%list)); [done|].
  intros c outs. destruct (gen_list (iter_i18n_fields c)) as [fields|]; [|done].
  cbn [mbind result_bind].
  destruct (component_eq_str c lang && bool_decide ("value" ∈ fields)); [done|].
  unfold update_of. rewrite (for_fold_ext _ _ (update_field tbl' lang c)); [done|].
  intros f m. unfold update_field. destruct (String.eqb f "choices").
  - unfold rebuild_choices. destruct (getattr c "choices") as [orig|]; [|done].
    cbn [mbind result_bind]. destruct (list_copy orig) as [choices|]; [|done].
    cbn [mbind result_bind].
    rewrite (for_fold_ext _ _ (rebuild_entry tbl' lang)); [done|].
    intros idx l. unfold rebuild_entry.
    destruct (getitem (VList l) idx) as [entry|]; [|done]. cbn [mbind result_bind].
    destruct (is_tuple entry).
    + destruct (unpack2 entry) as [[k v]|]; [|done]. cbn [mbind result_bind].
      by rewrite (translate_same_lang_table tbl tbl' lang k H).
    + by rewrite (translate_same_lang_table tbl tbl' lang entry H).
  - destruct (getattr c f) as [value|]; [|done]. cbn [mbind result_bind].
    by rewrite (translate_same_lang_table tbl tbl' lang value H).
Qed.

Lemma on_lang_change_selected_language_witness :
  let tbl : gmap string (gmap string string) :=
    {[ "fr" := {[ "Hello" := "Bonjour" ]}; "de" := {[ "Hello" := "Hallo" ]} ]} in
  let tbl' : gmap string (gmap string string) :=
    {[ "fr" := {[ "Hello" := "Bonjour" ]} ]} in
  lang_table tbl "fr" = lang_table tbl' "fr" ∧
  on_lang_change [ex_hello] tbl' "fr" = Ok (One {[ "label" := VStr "Bonjour" ]}) ∧
  on_lang_change [ex_hello] tbl "fr" = on_lang_change [ex_hello] tbl' "fr".
Proof.
  intros tbl tbl'.
  assert (H : lang_table tbl "fr" = lang_table tbl' "fr") by (vm_compute; reflexivity).
  split; [exact H|]. split; [vm_compute; reflexivity|].
  exact (on_lang_change_selected_language [ex_hello] tbl tbl' "fr" H).
Defined.
